(** * Experiment creation logic: flag-key generation, key validation and
    variant rollout allocation

    A shallow embedding of [createExperimentLogic]
    (frontend/src/scenes/experiments/create-experiment/) and the properties
    of its slug generator, uniqueness validator and variant allocator. *)

From Stdlib Require Import ZArith Ascii String.
From stdpp Require Import gmap strings pretty list.

(** ** JavaScript string primitives

    A JS string is a sequence of UTF-16 code units.  The model keeps the
    code units U+0000..U+00FF, one [ascii] each.  In that range
    [toLowerCase] maps A-Z and the Latin-1 capitals U+00C0..U+00DE (except
    the multiplication sign U+00D7) to the letter 32 places further, and the
    white space removed by [trim] is TAB, LF, VT, FF, CR, SPACE and NBSP.

    Outside that range [toLowerCase] can bring a character into ASCII:
    U+212A KELVIN SIGN becomes "k", and U+0130 becomes "i" followed by
    U+0307.  What the patterns of the program see is the lowercased string,
    so a property that depends on the class of the characters is stated on
    [toLowerCase name], not on the name as typed. *)
Module JS.

Definition code (c : ascii) : N := N_of_ascii c.

Definition between (lo hi : N) (c : ascii) : bool :=
  ((lo <=? code c) && (code c <=? hi))%N.

Definition is_upper (c : ascii) : bool :=
  between 65 90 c || (between 192 222 c && negb (code c =? 215)%N).

Definition toLowerCase_unit (c : ascii) : ascii :=
  if is_upper c then ascii_of_N (code c + 32) else c.

(** [String.prototype.toLowerCase] *)
Fixpoint toLowerCase (s : string) : string :=
  match s with
  | EmptyString => EmptyString
  | String c r => String (toLowerCase_unit c) (toLowerCase r)
  end.

Definition is_white_space (c : ascii) : bool :=
  between 9 13 c || (code c =? 32)%N || (code c =? 160)%N.

Fixpoint trimStart (s : string) : string :=
  match s with
  | EmptyString => EmptyString
  | String c r => if is_white_space c then trimStart r else s
  end.

(** [trimEnd], by structural recursion: a character is kept unless it is
    white space and nothing is kept after it. *)
Fixpoint trimEnd (s : string) : string :=
  match s with
  | EmptyString => EmptyString
  | String c r =>
      match trimEnd r with
      | EmptyString => if is_white_space c then EmptyString else String c EmptyString
      | r' => String c r'
      end
  end.

(** [String.prototype.trim] *)
Definition trim (s : string) : string := trimEnd (trimStart s).

(** Truthiness of a string: the empty string is the only falsy one. *)
Definition truthy (s : string) : bool :=
  match s with EmptyString => false | String _ _ => true end.

Fixpoint drop (n : nat) (s : string) : string :=
  match n, s with
  | S k, String _ r => drop k r
  | _, _ => s
  end.

(** *** Regular expressions of the shape [^?[class]+$?]

    The three patterns of the program are a character class under [+],
    with an optional anchor on either side. *)
Record RegExp := {
  anchor_start : bool;
  class : ascii -> bool;
  anchor_end : bool
}.

(** Greedy match of [[class]+] at the head of [s], followed by the end
    anchor when there is one: the longer match is tried first, the
    shorter one on backtracking.  Returns the length of the match. *)
Fixpoint match_plus (cls : ascii -> bool) (at_end : bool) (s : string) : option nat :=
  match s with
  | EmptyString => None
  | String c r =>
      if cls c then
        match match_plus cls at_end r with
        | Some n => Some (S n)
        | None =>
            if at_end
            then match r with EmptyString => Some 1%nat | String _ _ => None end
            else Some 1%nat
        end
      else None
  end.

(** A match attempt at one position; [bol] tells whether the position is
    the beginning of the input. *)
Definition match_at (re : RegExp) (bol : bool) (s : string) : option nat :=
  if anchor_start re && negb bol then None
  else match_plus (class re) (anchor_end re) s.

(** [s.replace(re, replacement)] without the [g] flag: the leftmost match
    is replaced, the rest of the string is kept. *)
Fixpoint replace_from (re : RegExp) (replacement : string) (bol : bool) (s : string) : string :=
  match match_at re bol s with
  | Some n => replacement +:+ drop n s
  | None =>
      match s with
      | EmptyString => EmptyString
      | String c r => String c (replace_from re replacement false r)
      end
  end.

Definition replace (re : RegExp) (replacement s : string) : string :=
  replace_from re replacement true s.

(** [s.replace(re, replacement)] with the [g] flag: after a match of
    length [n] the scan resumes behind it, here by skipping the [n - 1]
    characters that follow the first one. *)
Fixpoint replace_all_from (re : RegExp) (replacement : string)
    (skip : nat) (bol : bool) (s : string) : string :=
  match s with
  | EmptyString => EmptyString
  | String c r =>
      match skip with
      | S k => replace_all_from re replacement k false r
      | O =>
          match match_at re bol s with
          | Some n => replacement +:+ replace_all_from re replacement (Nat.pred n) false r
          | None => String c (replace_all_from re replacement 0 false r)
          end
      end
  end.

Definition replace_all (re : RegExp) (replacement s : string) : string :=
  replace_all_from re replacement 0 true s.

End JS.

(** ** Slug generator *)

(** The class [[A-Za-z0-9-_]] *)
Definition key_char (c : ascii) : bool :=
  JS.between 65 90 c || JS.between 97 122 c || JS.between 48 57 c
  || (JS.code c =? 45)%N || (JS.code c =? 95)%N.

Definition is_dash (c : ascii) : bool := (JS.code c =? 45)%N.

(** [/[^A-Za-z0-9-_]+/g] *)
Definition re_not_key_chars : JS.RegExp :=
  {| JS.anchor_start := false; JS.class := fun c => negb (key_char c); JS.anchor_end := false |}.

(** [/-+$/] *)
Definition re_trailing_dashes : JS.RegExp :=
  {| JS.anchor_start := false; JS.class := is_dash; JS.anchor_end := true |}.

(** [/^-+/] *)
Definition re_leading_dashes : JS.RegExp :=
  {| JS.anchor_start := true; JS.class := is_dash; JS.anchor_end := false |}.

(** The [baseKey] of [generateFeatureFlagKey]. *)
Definition baseKey (name : string) : string :=
  JS.replace re_leading_dashes ""
    (JS.replace re_trailing_dashes ""
      (JS.replace_all re_not_key_chars "-" (JS.toLowerCase name))).

(** The template literal [`${baseKey}-${counter}`]; [counter] is a
    non-negative integer, printed in decimal. *)
Definition candidate (base : string) (counter : N) : string :=
  base +:+ "-" +:+ pretty counter.

(** The [while (unavailableKeys.has(key))] loop, with the number of
    iterations bounded by [fuel]; [None] when the bound is reached.  The
    counter is a JS number; it stays below the size of the set plus two, where
    numbers are exact integers. *)
Fixpoint while_has (fuel : nat) (unavailableKeys : gset string)
    (base key : string) (counter : N) : option string :=
  match fuel with
  | O => None
  | S fuel' =>
      if decide (key ∈ unavailableKeys)
      then while_has fuel' unavailableKeys base (candidate base counter) (counter + 1)
      else Some key
  end.

Definition generateFeatureFlagKey_fuel (fuel : nat) (name : string)
    (unavailableKeys : gset string) : option string :=
  let base := baseKey name in
  while_has fuel unavailableKeys base base 1.

(** [generateFeatureFlagKey]: the loop is given one more iteration than the
    set has elements, which [while_has_terminates] shows to be enough. *)
Definition generateFeatureFlagKey (name : string) (unavailableKeys : gset string)
    : option string :=
  generateFeatureFlagKey_fuel (S (size unavailableKeys)) name unavailableKeys.

(** ** Data model *)

(** [MultivariateFlagVariant]: [name] is left out by the default variants
    and is the empty string in variants made by [addVariant]. *)
Record MultivariateFlagVariant := {
  variant_key : string;
  variant_name : option string;
  rollout_percentage : Z
}.

Record FeatureFlagType := {
  flag_key : string;
  flag_name : option string
}.

(** [parameters] of the form; [feature_flag_variants] may be undefined,
    which every reader replaces by the empty array ([|| []]). *)
Record Parameters := {
  feature_flag_variants : option (list MultivariateFlagVariant)
}.

Record ExperimentForm := {
  form_name : string;
  description : string;
  feature_flag_key : string;
  parameters : Parameters
}.

Definition NEW_EXPERIMENT : ExperimentForm :=
  {| form_name := "";
     description := "";
     feature_flag_key := "";
     parameters :=
       {| feature_flag_variants := Some
            [ {| variant_key := "control"; variant_name := None; rollout_percentage := 50 |};
              {| variant_key := "test"; variant_name := None; rollout_percentage := 50 |} ] |} |}.

Inductive FeatureFlagMode := ModeNew | ModeExisting.

(** The values of the logic that the listeners read. *)
Record Values := {
  featureFlagMode : FeatureFlagMode;
  selectedFeatureFlag : option FeatureFlagType;
  featureFlagKeyValidationError : option string;
  experimentForm : ExperimentForm
}.

(** What a listener does besides updating the values. *)
Inductive Effect :=
| ToastError (message : string)
| TouchExperimentFormField (field : string)
| SubmitExperimentForm.

#[export] Instance Effect_eq_dec : EqDecision Effect.
Proof. solve_decision. Defined.

(** ** Listeners: state passing with a log of effects *)

Definition Listener (A : Type) : Type := Values -> A * Values * list Effect.

#[export] Instance listener_ret : MRet Listener := fun A a v => (a, v, []).

#[export] Instance listener_bind : MBind Listener := fun A B k m v =>
  let '(a, v1, e1) := m v in
  let '(b, v2, e2) := k a v1 in
  (b, v2, (e1 ++ e2)%list).

Definition values : Listener Values := fun v => (v, v, []).
Definition emit (e : Effect) : Listener unit := fun v => (tt, v, [e]).
Definition modify (f : Values -> Values) : Listener unit := fun v => (tt, f v, []).

Definition final_values (r : unit * Values * list Effect) : Values := snd (fst r).
Definition effects (r : unit * Values * list Effect) : list Effect := snd r.

(** The form fields that the listeners below write. *)
Inductive FormValue :=
| FeatureFlagKeyValue (value : string)
| ParametersValue (value : Parameters).

Definition set_form_value (fv : FormValue) (f : ExperimentForm) : ExperimentForm :=
  match fv with
  | FeatureFlagKeyValue k =>
      {| form_name := form_name f; description := description f;
         feature_flag_key := k; parameters := parameters f |}
  | ParametersValue p =>
      {| form_name := form_name f; description := description f;
         feature_flag_key := feature_flag_key f; parameters := p |}
  end.

(** [actions.setExperimentFormValue(name, value)] for the fields
    ['feature_flag_key'] and ['parameters'].  The logic's own listener of
    this action acts on the field ['name'] only. *)
Definition setExperimentFormValue (fv : FormValue) : Listener unit :=
  modify (fun v =>
    {| featureFlagMode := featureFlagMode v;
       selectedFeatureFlag := selectedFeatureFlag v;
       featureFlagKeyValidationError := featureFlagKeyValidationError v;
       experimentForm := set_form_value fv (experimentForm v) |}).

(** [values.experimentForm.parameters.feature_flag_variants || []] *)
Definition variants_or_empty (v : Values) : list MultivariateFlagVariant :=
  default [] (feature_flag_variants (parameters (experimentForm v))).

(** [{ ...values.experimentForm.parameters, feature_flag_variants: vs }] *)
Definition with_variants (p : Parameters) (vs : list MultivariateFlagVariant) : Parameters :=
  {| feature_flag_variants := Some vs |}.

(** ** Variant rollout allocator *)

(** [`variant-${variants.length + 1}`] with empty name and no share. *)
Definition newVariant (variants : list MultivariateFlagVariant) : MultivariateFlagVariant :=
  {| variant_key := "variant-" +:+ pretty (N.of_nat (length variants + 1));
     variant_name := Some "";
     rollout_percentage := 0 |}.

Definition addVariant : Listener unit :=
  v ← values;
  let variants := variants_or_empty v in
  setExperimentFormValue
    (ParametersValue (with_variants (parameters (experimentForm v))
                        (variants ++ [newVariant variants])%list)).

(** [Array.prototype.filter] with a callback that reads the element and its
    index; [i] is the index of the head of [l]. *)
Fixpoint filter_indexed {A : Type} (p : A -> nat -> bool) (i : nat) (l : list A) : list A :=
  match l with
  | [] => []
  | x :: r => if p x i then x :: filter_indexed p (S i) r else filter_indexed p (S i) r
  end.

(** [index] is a JS number; the integers are modelled. *)
Definition removeVariant (index : Z) : Listener unit :=
  v ← values;
  let variants := variants_or_empty v in
  if (length variants <=? 2)%nat then
    emit (ToastError "Experiments must have at least 2 variants")
  else
    let updatedVariants :=
      filter_indexed (fun _ i => negb (Z.of_nat i =? index)%Z) 0 variants in
    setExperimentFormValue
      (ParametersValue (with_variants (parameters (experimentForm v)) updatedVariants)).

(** [Math.round(a / b)] for integers [a >= 0] and [b > 0]: the nearest
    integer, a half rounded up.  The program divides [100] by the array
    length [n] in binary64.  A half-integer below 101 is a binary64 number,
    and the exact quotient, when it is not that half-integer, is at least
    [1 / (2 n)] away from it, far more than the rounding error of the
    division; so the binary64 quotient and the exact one round alike. *)
Definition Math_round_div (a b : Z) : Z := ((2 * a + b) / (2 * b))%Z.

Definition with_rollout (variant : MultivariateFlagVariant) (p : Z) : MultivariateFlagVariant :=
  {| variant_key := variant_key variant;
     variant_name := variant_name variant;
     rollout_percentage := p |}.

Definition distributeVariantsEqually : Listener unit :=
  v ← values;
  let variants := variants_or_empty v in
  let numVariants := length variants in
  if (numVariants =? 0)%nat then mret tt
  else
    let percentageRounded := Math_round_div 100 (Z.of_nat numVariants) in
    let totalRounded := (percentageRounded * Z.of_nat numVariants)%Z in
    let delta := (totalRounded - 100)%Z in
    let updatedVariants :=
      imap (fun index variant =>
              let adjustedPercentage :=
                if (index =? numVariants - 1)%nat
                then (percentageRounded - delta)%Z
                else percentageRounded in
              with_rollout variant adjustedPercentage) variants in
    setExperimentFormValue
      (ParametersValue (with_variants (parameters (experimentForm v)) updatedVariants)).

(** [x || 0] on numbers *)
Definition or_zero (x : Z) : Z := if (x =? 0)%Z then 0%Z else x.

(** The selector [variantPercentageSum], on shares that are whole numbers.
    The source adds JS numbers; their sum is the sum in [Z] as long as it
    stays within 2^53, see [shares_within]. *)
Definition variantPercentageSum (variants : list MultivariateFlagVariant) : Z :=
  fold_left (fun sum variant => (sum + or_zero (rollout_percentage variant))%Z) variants 0%Z.

(** ** Saving *)

(** The error object of the form: a message per field in error. *)
Record FormErrors := {
  name_error : option string;
  feature_flag_key_error : option string
}.

(** The [errors] function of the form. *)
Definition errors (f : ExperimentForm) : FormErrors :=
  {| name_error :=
       if JS.truthy (JS.trim (form_name f)) then None else Some "Please enter a name";
     feature_flag_key_error :=
       if JS.truthy (JS.trim (feature_flag_key f)) then None
       else Some "Please enter a feature flag key" |}.

(** Modelled from the spec: the selector [experimentFormErrors] is made by
    kea-forms from [errors] and is not among the sources.  A missing required
    field (name, key) is surfaced next to the field and blocks submission;
    which messages the library surfaces at a given moment (fields touched,
    submission attempted) is its own state, for which [shown] stands. *)
Definition experimentFormErrors (shown : FormErrors → FormErrors) (f : ExperimentForm)
    : FormErrors :=
  shown (errors f).

(** Modelled from the spec: [hasFormErrors] of [lib/utils] is not among the
    sources.  Submission is blocked when a required field (name, key) is
    missing, that is when some field of the error object holds a message. *)
Definition hasFormErrors (e : FormErrors) : bool :=
  bool_decide (is_Some (name_error e)) || bool_decide (is_Some (feature_flag_key_error e)).

Definition saveAsDraft (shown : FormErrors → FormErrors) : Listener unit :=
  emit (TouchExperimentFormField "name");;
  v ← values;
  let check_and_submit : Listener unit :=
    v ← values;
    if hasFormErrors (experimentFormErrors shown (experimentForm v)) then mret tt
    else
      match featureFlagMode v, selectedFeatureFlag v with
      | ModeExisting, Some flag =>
          setExperimentFormValue (FeatureFlagKeyValue (flag_key flag));;
          emit SubmitExperimentForm
      | _, _ => emit SubmitExperimentForm
      end in
  match featureFlagMode v, selectedFeatureFlag v with
  | ModeNew, _ =>
      emit (TouchExperimentFormField "feature_flag_key");; check_and_submit
  | ModeExisting, None =>
      emit (ToastError "Please select an existing feature flag")
  | ModeExisting, Some _ => check_and_submit
  end.

(** Every message of [errors] is surfaced. *)
Definition all_shown : FormErrors → FormErrors := id.

Definition submitted (r : unit * Values * list Effect) : bool :=
  bool_decide (SubmitExperimentForm ∈ effects r).

(** ** Uniqueness validator *)

(** The value of the loader [featureFlagValidation]. *)
Record Validation := { available : bool }.

(** What [await api.get(...)] produces: the request fails, or it answers
    with a [results] field that may be missing. *)
Inductive ApiResponse :=
| ApiFailure
| ApiResults (results : option (list FeatureFlagType)).

(** The actions of the loader.  kea-loaders creates
    [validateFeatureFlagKeySuccess (value, payload)] and
    [validateFeatureFlagKeyFailure (error)]; the value is what the loader
    function returned, so it may be [null]. *)
Inductive LoaderAction :=
| validateFeatureFlagKeySuccess (featureFlagValidation : option Validation) (key : string)
| validateFeatureFlagKeyFailure (error : string).

(** The reducer [featureFlagKeyValidationError]. *)
Definition reduce_validation_error (state : option string) (a : LoaderAction) : option string :=
  match a with
  | validateFeatureFlagKeySuccess _ _ => None
  | validateFeatureFlagKeyFailure error => Some error
  end.

(** The reducer of the loader's value [featureFlagValidation], which
    kea-loaders adds: the success action stores its value, the failure action
    leaves the value as it is. *)
Definition reduce_validation_value (state : option Validation) (a : LoaderAction)
    : option Validation :=
  match a with
  | validateFeatureFlagKeySuccess value _ => value
  | validateFeatureFlagKeyFailure _ => state
  end.

(** An asynchronous function body: it returns, dispatches an action and goes
    on, or suspends on a lookup
    [api/projects/<id>/feature_flags/?search=<encodeURIComponent(search)>]
    and goes on with the response. *)
Inductive Async (R : Type) : Type :=
| Return (r : R)
| Dispatch (a : LoaderAction) (k : Async R)
| Await (search : string) (k : ApiResponse -> Async R).

Arguments Return {R} r.
Arguments Dispatch {R} a k.
Arguments Await {R} search k.

(** [response.results?.find((flag) => flag.key === key)] *)
Definition find_flag (results : option (list FeatureFlagType)) (key : string)
    : option FeatureFlagType :=
  results ≫= List.find (fun flag => bool_decide (flag_key flag = key)).

(** The loader function [validateFeatureFlagKey]. *)
Definition validateFeatureFlagKey (key : string) : Async (option Validation) :=
  if negb (JS.truthy (JS.trim key)) then
    Dispatch (validateFeatureFlagKeyFailure "Feature flag key is required")
      (Return None)
  else
    Await key (fun response =>
      match response with
      | ApiResults results =>
          match find_flag results key with
          | Some _ =>
              Dispatch (validateFeatureFlagKeyFailure "This feature flag key is already in use")
                (Return (Some {| available := false |}))
          | None =>
              Dispatch (validateFeatureFlagKeySuccess (Some {| available := true |}) key)
                (Return (Some {| available := true |}))
          end
      | ApiFailure =>
          Dispatch (validateFeatureFlagKeyFailure "Error validating feature flag key")
            (Return None)
      end).

(** What kea-loaders does when the loader function called with [{ key }]
    returns [value]: it dispatches
    [validateFeatureFlagKeySuccess (value, { key })].  The function above
    returns in each of its branches, so this action follows every call, after
    the actions that the function dispatched itself. *)
Definition loader_returned (key : string) (value : option Validation) : LoaderAction :=
  validateFeatureFlagKeySuccess value key.

(** One run of the loader against a registry [api]. *)
Record Run (R : Type) := {
  remote_calls : list string;
  dispatched : list LoaderAction;
  returned : R
}.

Arguments remote_calls {R} _.
Arguments dispatched {R} _.
Arguments returned {R} _.

(** [run_with api key t] runs what is left, [t], of the loader function
    called with [{ key }]; [dispatched] lists the actions in the order of
    their dispatch, the one of kea-loaders last. *)
Fixpoint run_with (api : string -> ApiResponse) (key : string)
    (t : Async (option Validation)) : Run (option Validation) :=
  match t with
  | Return value =>
      {| remote_calls := []; dispatched := [loader_returned key value]; returned := value |}
  | Dispatch a k =>
      let r := run_with api key k in
      {| remote_calls := remote_calls r; dispatched := a :: dispatched r; returned := returned r |}
  | Await search k =>
      let r := run_with api key (k (api search)) in
      {| remote_calls := search :: remote_calls r; dispatched := dispatched r; returned := returned r |}
  end.

(** The error shown next to the key field after the actions of a run. *)
Definition error_after (state : option string) (r : Run (option Validation)) : option string :=
  fold_left reduce_validation_error (dispatched r) state.

(** The loader's value after the actions of a run. *)
Definition value_after (state : option Validation) (r : Run (option Validation))
    : option Validation :=
  fold_left reduce_validation_value (dispatched r) state.

(** *** Validation requests in flight

    Events are handled one at a time.  A loader call runs until it returns
    or suspends on its lookup; a suspended call is resumed by the arrival of
    its response, at any later time and in any order.  The session holds the
    two values that the loader's actions reduce, the requests in flight, each
    with the key of its call, and the pending debounce. *)
Record Session := {
  validationError : option string;
  featureFlagValidation : option Validation;
  in_flight : list (string * (ApiResponse -> Async (option Validation)));
  debounce_timer : option string
}.

Definition initial_session : Session :=
  {| validationError := None; featureFlagValidation := None;
     in_flight := []; debounce_timer := None |}.

(** An action goes through both reducers. *)
Definition dispatch (a : LoaderAction) (s : Session) : Session :=
  {| validationError := reduce_validation_error (validationError s) a;
     featureFlagValidation := reduce_validation_value (featureFlagValidation s) a;
     in_flight := in_flight s;
     debounce_timer := debounce_timer s |}.

(** [advance key t s] goes on with what is left, [t], of the loader function
    called with [{ key }]. *)
Fixpoint advance (key : string) (t : Async (option Validation)) (s : Session) : Session :=
  match t with
  | Return value => dispatch (loader_returned key value) s
  | Dispatch a k => advance key k (dispatch a s)
  | Await search k =>
      {| validationError := validationError s;
         featureFlagValidation := featureFlagValidation s;
         in_flight := (in_flight s ++ [(key, k)])%list;
         debounce_timer := debounce_timer s |}
  end.

(** The function that the listener [updateFeatureFlagKey] debounces: the key
    it validates, if any. *)
Definition updateFeatureFlagKey (key : string) : option string :=
  if JS.truthy (JS.trim key) then Some (JS.trim key) else None.

Inductive Event :=
| ValidateFeatureFlagKey (key : string)
| UpdateFeatureFlagKey (key : string)
| DebounceElapsed
| ResponseArrives (n : nat) (response : ApiResponse).

(** Modelled from the spec: [debounce] of [lib/utils] is not among the
    sources.  Every call resets the timer, and the handler runs once, with
    the arguments of the last call, when the interval has passed without
    a call.  [ResponseArrives n] settles the [n]-th request in flight. *)
Definition step (s : Session) (e : Event) : Session :=
  match e with
  | ValidateFeatureFlagKey key => advance key (validateFeatureFlagKey key) s
  | UpdateFeatureFlagKey key =>
      {| validationError := validationError s;
         featureFlagValidation := featureFlagValidation s;
         in_flight := in_flight s;
         debounce_timer := Some key |}
  | DebounceElapsed =>
      let s' := {| validationError := validationError s;
                   featureFlagValidation := featureFlagValidation s;
                   in_flight := in_flight s;
                   debounce_timer := None |} in
      match debounce_timer s ≫= updateFeatureFlagKey with
      | Some key => advance key (validateFeatureFlagKey key) s'
      | None => s'
      end
  | ResponseArrives n response =>
      match in_flight s !! n with
      | Some (key, k) =>
          advance key (k response)
            {| validationError := validationError s;
               featureFlagValidation := featureFlagValidation s;
               in_flight := delete n (in_flight s);
               debounce_timer := debounce_timer s |}
      | None => s
      end
  end.

Definition run_events (s : Session) (events : list Event) : Session :=
  fold_left step events s.

(** The value that the loader function returns for [key] when its lookup is
    answered with [response]. *)
Definition validation_of (key : string) (response : ApiResponse) : option Validation :=
  match response with
  | ApiFailure => None
  | ApiResults results =>
      match find_flag results key with
      | Some _ => Some {| available := false |}
      | None => Some {| available := true |}
      end
  end.

(** ** The slug generator as described

    The normalisation in the words of its description: lowercase, every
    maximal run of characters outside [[A-Za-z0-9-_]] replaced by a single
    dash, leading and trailing dashes stripped; and the choice of the key:
    the base when it is free, else the first free [base-1], [base-2], ... *)
Module Described.

(** The maximal runs of [s], each with the side of the class it is on. *)
Fixpoint runs (s : string) : list (bool * string) :=
  match s with
  | EmptyString => []
  | String c r =>
      match runs r with
      | (b, run) :: rest =>
          if Bool.eqb b (key_char c) then (b, String c run) :: rest
          else (key_char c, String c EmptyString) :: (b, run) :: rest
      | [] => [(key_char c, String c EmptyString)]
      end
  end.

Definition render_run (r : bool * string) : string :=
  if fst r then snd r else "-".

Definition replace_runs (s : string) : string :=
  foldr (fun r acc => render_run r +:+ acc) "" (runs s).

Fixpoint strip_leading_dashes (s : string) : string :=
  match s with
  | EmptyString => EmptyString
  | String c r => if is_dash c then strip_leading_dashes r else s
  end.

Fixpoint reverse (s : string) : string :=
  match s with
  | EmptyString => EmptyString
  | String c r => reverse r +:+ String c EmptyString
  end.

Definition strip_trailing_dashes (s : string) : string :=
  reverse (strip_leading_dashes (reverse s)).

Definition normalize (name : string) : string :=
  strip_leading_dashes (strip_trailing_dashes (replace_runs (JS.toLowerCase name))).

(** [key] is the base if the base is free, else the first free
    [base-k], [k = 1, 2, ...]. *)
Definition first_free (base : string) (reserved : gset string) (key : string) : Prop :=
  ((base ∉ reserved) ∧ key = base)
  ∨ (base ∈ reserved ∧
     ∃ k : N, (1 ≤ k)%N ∧ key = candidate base k ∧ (key ∉ reserved) ∧
              ∀ j : N, (1 ≤ j < k)%N → candidate base j ∈ reserved).

End Described.

(** ** Runs of characters *)

(** The number of leading characters of [s] in the class [cls]. *)
Fixpoint run_length (cls : ascii → bool) (s : string) : nat :=
  match s with
  | EmptyString => 0
  | String c r => if cls c then S (run_length cls r) else 0
  end.

Fixpoint drop_run (cls : ascii → bool) (s : string) : string :=
  match s with
  | EmptyString => EmptyString
  | String c r => if cls c then drop_run cls r else s
  end.

Fixpoint all_in (cls : ascii → bool) (s : string) : bool :=
  match s with
  | EmptyString => true
  | String c r => cls c && all_in cls r
  end.

(** The complement of the class [[A-Za-z0-9-_]]. *)
Definition not_key_char (c : ascii) : bool := negb (key_char c).

(** A run is not empty and lies on one side of the class. *)
Definition homogeneous (r : bool * string) : Prop :=
  snd r ≠ "" ∧ all_in (fun c => Bool.eqb (key_char c) (fst r)) (snd r) = true.

(** Neighbouring runs lie on different sides of the class. *)
Fixpoint alternating (l : list (bool * string)) : Prop :=
  match l with
  | r1 :: tl =>
      match tl with
      | r2 :: _ => fst r1 ≠ fst r2 ∧ alternating tl
      | [] => True
      end
  | [] => True
  end.

(** Every character of [s] is outside [[A-Za-z0-9-_]]. *)
Definition no_key_char (s : string) : bool := all_in not_key_char s.

(** ** Initial values and registry contents *)

(** The values of the logic when the form is mounted. *)
Definition initial_values : Values :=
  {| featureFlagMode := ModeNew;
     selectedFeatureFlag := None;
     featureFlagKeyValidationError := None;
     experimentForm := NEW_EXPERIMENT |}.

(** The response holds a record whose key is exactly [key]. *)
Definition registry_has (response : ApiResponse) (key : string) : Prop :=
  ∃ results flag,
    response = ApiResults (Some results) ∧ flag ∈ results ∧ flag_key flag = key.

(** A form with its name and key filled in and shares 50 and 40. *)
Definition unbalanced_values : Values :=
  {| featureFlagMode := ModeNew;
     selectedFeatureFlag := None;
     featureFlagKeyValidationError := None;
     experimentForm :=
       {| form_name := "Pricing page";
          description := "";
          feature_flag_key := "pricing-page";
          parameters :=
            {| feature_flag_variants := Some
                 [ {| variant_key := "control"; variant_name := None; rollout_percentage := 50 |};
                   {| variant_key := "test"; variant_name := None; rollout_percentage := 40 |} ] |} |} |}.

(** The values [v] with other parameters in the form. *)
Definition with_parameters (v : Values) (p : Parameters) : Values :=
  final_values (setExperimentFormValue (ParametersValue p) v).

(** The required fields of the form hold text. *)
Definition required_fields_filled (v : Values) : Prop :=
  JS.trim (form_name (experimentForm v)) ≠ "" ∧
  JS.trim (feature_flag_key (experimentForm v)) ≠ "".

(** A response with one record, of key [key], and a response with none. *)
Definition taken_response (key : string) : ApiResponse :=
  ApiResults (Some [ {| flag_key := key; flag_name := None |} ]).

Definition free_response : ApiResponse := ApiResults (Some []).

(** A registry that answers every lookup with the flags "pricing" and
    "pricing-page", and one that is out of reach. *)
Definition pricing_registry (search : string) : ApiResponse :=
  ApiResults (Some [ {| flag_key := "pricing"; flag_name := None |};
                     {| flag_key := "pricing-page"; flag_name := None |} ]).

Definition unreachable_registry (search : string) : ApiResponse := ApiFailure.

(** The initial values with [n] variants of share 0 in the form. *)
Definition values_of_variants (n : nat) : Values :=
  with_parameters initial_values
    {| feature_flag_variants := Some
         (imap (fun i _ => {| variant_key := "v" +:+ pretty (N.of_nat i);
                              variant_name := None;
                              rollout_percentage := 0 |}) (replicate n tt)) |}.

(** The shares after [distributeVariantsEqually] on [n] variants. *)
Definition distributed_shares (n : nat) : list Z :=
  rollout_percentage <$>
    variants_or_empty (final_values (distributeVariantsEqually (values_of_variants n))).

(** ** The rest of the logic *)

(** What a listener dispatches for other parts of the logic to handle. *)
Inductive FollowUp :=
| FollowValidateFeatureFlagKey (key : string)
| FollowLoadExistingFeatureFlags.

(** [new Set(values.existingFeatureFlags.map(flag => flag.key))] *)
Definition unavailableKeys_of (existingFeatureFlags : list FeatureFlagType) : gset string :=
  list_to_set (flag_key <$> existingFeatureFlags).

(** The listener [generateFeatureFlagKeyFromName].  [existingFeatureFlags]
    is the value of the loader of that name.  The branch without a generated
    key stands for a loop out of fuel, which does not happen
    ([generateFeatureFlagKey_returns]). *)
Definition generateFeatureFlagKeyFromName (existingFeatureFlags : list FeatureFlagType)
    : Listener (list FollowUp) :=
  v ← values;
  let experimentName := form_name (experimentForm v) in
  if JS.truthy (JS.trim experimentName) then
    let unavailableKeys := unavailableKeys_of existingFeatureFlags in
    match generateFeatureFlagKey (JS.trim experimentName) unavailableKeys with
    | Some generatedKey =>
        setExperimentFormValue (FeatureFlagKeyValue generatedKey);;
        mret [FollowValidateFeatureFlagKey generatedKey]
    | None => mret []
    end
  else mret [].

Definition with_form_name (value : string) (v : Values) : Values :=
  {| featureFlagMode := featureFlagMode v;
     selectedFeatureFlag := selectedFeatureFlag v;
     featureFlagKeyValidationError := featureFlagKeyValidationError v;
     experimentForm :=
       {| form_name := value;
          description := description (experimentForm v);
          feature_flag_key := feature_flag_key (experimentForm v);
          parameters := parameters (experimentForm v) |} |}.

(** [mode === 'new'] *)
Definition is_new (mode : FeatureFlagMode) : bool :=
  match mode with ModeNew => true | ModeExisting => false end.

(** [actions.setExperimentFormValue('name', value)]: the form takes the
    value, then the listener of the logic runs. *)
Definition setExperimentFormName (existingFeatureFlags : list FeatureFlagType)
    (value : string) : Listener (list FollowUp) :=
  modify (with_form_name value);;
  v ← values;
  if JS.truthy (JS.trim value) && is_new (featureFlagMode v)
  then generateFeatureFlagKeyFromName existingFeatureFlags
  else mret [].

Definition with_mode (mode : FeatureFlagMode) (v : Values) : Values :=
  {| featureFlagMode := mode;
     selectedFeatureFlag := selectedFeatureFlag v;
     featureFlagKeyValidationError := featureFlagKeyValidationError v;
     experimentForm := experimentForm v |}.

(** The reducer of [selectedFeatureFlag] on [setSelectedFeatureFlag]. *)
Definition with_selected (flag : option FeatureFlagType) (v : Values) : Values :=
  {| featureFlagMode := featureFlagMode v;
     selectedFeatureFlag := flag;
     featureFlagKeyValidationError := featureFlagKeyValidationError v;
     experimentForm := experimentForm v |}.

(** The reducer of [featureFlagKeyValidationError], on the values. *)
Definition with_validation_error (error : option string) (v : Values) : Values :=
  {| featureFlagMode := featureFlagMode v;
     selectedFeatureFlag := selectedFeatureFlag v;
     featureFlagKeyValidationError := error;
     experimentForm := experimentForm v |}.

(** [actions.setFeatureFlagMode(mode)]: the reducer, then the listener. *)
Definition setFeatureFlagMode (existingFeatureFlags : list FeatureFlagType)
    (mode : FeatureFlagMode) : Listener (list FollowUp) :=
  modify (with_mode mode);;
  match mode with
  | ModeNew =>
      modify (with_selected None);;
      v ← values;
      if JS.truthy (JS.trim (form_name (experimentForm v)))
      then generateFeatureFlagKeyFromName existingFeatureFlags
      else mret []
  | ModeExisting =>
      setExperimentFormValue (FeatureFlagKeyValue "");;
      mret [FollowLoadExistingFeatureFlags]
  end.

(** *** The variants list component

    [handleRemoveVariant] and [handleAddVariant] of [FeatureFlagVariantsList],
    with [removeVariant] and [addVariant] for [onRemoveVariant] and
    [onAddVariant], as the experiment form passes them. *)
Definition handleRemoveVariant (minVariants : nat) (index : Z) : Listener unit :=
  v ← values;
  if (minVariants <? length (variants_or_empty v))%nat
  then removeVariant index
  else mret tt.

(** The result is [newIndex], which goes to [focusVariantKeyField] when the
    component is given one. *)
Definition handleAddVariant : Listener nat :=
  v ← values;
  let newIndex := length (variants_or_empty v) in
  addVariant;;
  mret newIndex.

(** *** Sequences of allocator actions *)
Inductive AllocatorAction :=
| AddVariant
| RemoveVariant (index : Z)
| DistributeVariantsEqually.

Definition allocate (a : AllocatorAction) : Listener unit :=
  match a with
  | AddVariant => addVariant
  | RemoveVariant index => removeVariant index
  | DistributeVariantsEqually => distributeVariantsEqually
  end.

Definition allocate_all (actions : list AllocatorAction) (v : Values) : Values :=
  fold_left (fun v a => final_values (allocate a v)) actions v.

(** *** Submission

    The [submit] function of the form.  [api.create] rejects with an error
    that may carry a [detail], or answers with a response that may carry an
    [id]; [0] and the empty string are falsy. *)
Inductive CreateResult :=
| CreateRejected (detail : option string)
| CreateResponded (id : option Z).

Inductive SubmitEffect :=
| ApiCreate (body : ExperimentForm)
| ToastSuccess (message : string)
| RouterPushExperiment (id : Z)
| ToastFailure (message : string).

(** [{ ...formValues, name: formValues.name.trim(), start_date: null }] *)
Definition create_body (formValues : ExperimentForm) : ExperimentForm :=
  {| form_name := JS.trim (form_name formValues);
     description := description formValues;
     feature_flag_key := feature_flag_key formValues;
     parameters := parameters formValues |}.

Definition submit (formValues : ExperimentForm) (result : CreateResult) : list SubmitEffect :=
  ApiCreate (create_body formValues) ::
  match result with
  | CreateResponded (Some id) =>
      if (id =? 0)%Z then []
      else [ToastSuccess "Experiment saved as draft"; RouterPushExperiment id]
  | CreateResponded None => []
  | CreateRejected detail =>
      [ToastFailure
         match detail with
         | Some d => if JS.truthy d then d else "Failed to create experiment"
         | None => "Failed to create experiment"
         end]
  end.

(** *** Shapes of keys *)

(** The class [[a-z0-9-_]]. *)
Definition slug_char (c : ascii) : bool :=
  JS.between 97 122 c || JS.between 48 57 c
  || (JS.code c =? 45)%N || (JS.code c =? 95)%N.

Definition starts_with_dash (s : string) : bool :=
  match s with
  | EmptyString => false
  | String c _ => is_dash c
  end.

Fixpoint ends_with_dash (s : string) : bool :=
  match s with
  | EmptyString => false
  | String c r =>
      match r with
      | EmptyString => is_dash c
      | String _ _ => ends_with_dash r
      end
  end.

(** Every request in flight was made by [validateFeatureFlagKey] for its
    key, which is not blank. *)
Definition issued_by_validator (s : Session) : Prop :=
  Forall (fun request =>
            JS.trim (fst request) ≠ "" ∧
            validateFeatureFlagKey (fst request) = Await (fst request) (snd request))
         (in_flight s).

(** The values that a listener leaves, and what it returns. *)
Definition values_after {A : Type} (r : A * Values * list Effect) : Values := snd (fst r).
Definition returned_by {A : Type} (r : A * Values * list Effect) : A := fst (fst r).

(** The values with [key] in the key field of the form. *)
Definition with_feature_flag_key (key : string) (v : Values) : Values :=
  final_values (setExperimentFormValue (FeatureFlagKeyValue key) v).

(** A registry that lists flags of [flags] only, and answers every lookup. *)
Definition lists_only (api : string → ApiResponse) (flags : list FeatureFlagType) : Prop :=
  ∀ search, api search ≠ ApiFailure ∧
            ∀ results flag, api search = ApiResults (Some results) →
                            flag ∈ results → flag ∈ flags.

(** The flags "pricing-page" and "pricing-page-1", and a form named
    "Pricing Page". *)
Definition two_flags : list FeatureFlagType :=
  [ {| flag_key := "pricing-page"; flag_name := None |};
    {| flag_key := "pricing-page-1"; flag_name := Some "Pricing" |} ].

Definition named_values : Values := with_form_name " Pricing Page " initial_values.

(** The [updatedVariants] of [distributeVariantsEqually]. *)
Definition distributed (variants : list MultivariateFlagVariant) : list MultivariateFlagVariant :=
  let n := length variants in
  let base := Math_round_div 100 (Z.of_nat n) in
  imap (fun index variant =>
          with_rollout variant
            (if (index =? n - 1)%nat
             then (base - (base * Z.of_nat n - 100))%Z else base))
       variants.

(** [v'] differs from [v] in the parameters of the form at most. *)
Definition same_but_parameters (v v' : Values) : Prop :=
  featureFlagMode v' = featureFlagMode v ∧
  selectedFeatureFlag v' = selectedFeatureFlag v ∧
  featureFlagKeyValidationError v' = featureFlagKeyValidationError v ∧
  form_name (experimentForm v') = form_name (experimentForm v) ∧
  description (experimentForm v') = description (experimentForm v) ∧
  feature_flag_key (experimentForm v') = feature_flag_key (experimentForm v).

(** Every share is a whole number between [-bound] and [bound].  The
    selector [variantPercentageSum] adds JS numbers, which add whole numbers
    exactly as long as the sums stay within 2^53; an array has fewer than
    2^32 elements, so with [bound] up to 2^21 every sum met on the way is
    exact and [variantPercentageSum] is the sum that the selector computes. *)
Definition shares_within (bound : Z) (variants : list MultivariateFlagVariant) : Prop :=
  Forall (fun variant => (- bound ≤ rollout_percentage variant ≤ bound)%Z) variants.

(** * Properties *)

(** ** Strings *)

Lemma app_cons (c : ascii) (s t : string) : String c s +:+ t = String c (s +:+ t).
Proof. reflexivity. Qed.

Lemma app_empty_r (s : string) : s +:+ "" = s.
Proof.
  induction s as [|c s IH]; [reflexivity|].
  rewrite app_cons, IH. reflexivity.
Qed.

Lemma app_assoc_s (a b c : string) : (a +:+ b) +:+ c = a +:+ b +:+ c.
Proof.
  induction a as [|x a IH]; [reflexivity|].
  rewrite !app_cons, IH. reflexivity.
Qed.

Lemma candidate_inj (base : string) (i j : N) :
  candidate base i = candidate base j → i = j.
Proof.
  unfold candidate. intros H.
  apply (inj (String.app base)) in H.
  apply (inj (String.app "-")) in H.
  by apply (inj pretty) in H.
Qed.

Lemma candidate_ne_base (base : string) (j : N) : candidate base j ≠ base.
Proof.
  unfold candidate. intros H.
  rewrite <- (app_empty_r base) in H at 2.
  apply (inj (String.app base)) in H. discriminate H.
Qed.

Lemma candidate_empty (k : N) : candidate "" k ≠ "".
Proof. apply candidate_ne_base. Qed.

(** ** The collision loop *)

Section loop.
Variable reserved : gset string.
Variable base : string.

(** A key that the loop returns is free, and the candidates that it
    passed over are reserved. *)
Lemma while_has_sound (fuel : nat) (key : string) (c : N) (r : string) :
  while_has fuel reserved base key c = Some r →
  (r ∉ reserved) ∧
  (((key ∉ reserved) ∧ r = key)
   ∨ (key ∈ reserved ∧
      ∃ k : N, (c ≤ k)%N ∧ r = candidate base k ∧
               ∀ j : N, (c ≤ j < k)%N → candidate base j ∈ reserved)).
Proof.
  revert key c.
  induction fuel as [|fuel IH]; intros key c; simpl; [discriminate|].
  destruct (decide (key ∈ reserved)) as [Hin|Hout].
  - intros H. apply IH in H as [Hr Hcases]. split; [done|]. right. split; [done|].
    destruct Hcases as [[_ ->] | [Hc (k & Hk & -> & Hbelow)]].
    + exists c. split; [lia|]. split; [done|]. intros j Hj. lia.
    + exists k. split; [lia|]. split; [done|]. intros j Hj.
      destruct (decide (j = c)) as [->|Hne]; [done|]. apply Hbelow. lia.
  - intros [= <-]. split; [done|]. by left.
Qed.

(** The loop ends as soon as its bound exceeds the number of reserved
    keys that it has not yet met: [seen] holds the keys already passed. *)
Lemma while_has_terminates' (fuel : nat) (key : string) (c : N) (seen : gset string) :
  seen ⊆ reserved →
  key ∉ seen →
  (∀ j : N, (c ≤ j)%N → (candidate base j ∉ seen) ∧ candidate base j ≠ key) →
  size reserved < size seen + fuel →
  is_Some (while_has fuel reserved base key c).
Proof.
  revert key c seen.
  induction fuel as [|fuel IH]; intros key c seen Hsub Hkey Hfresh Hsize.
  - apply subseteq_size in Hsub. lia.
  - simpl. destruct (decide (key ∈ reserved)) as [Hin|Hout]; [|by eexists].
    apply (IH _ _ ({[key]} ∪ seen)).
    + intros x [->%elem_of_singleton | Hx]%elem_of_union; [done | by apply Hsub].
    + destruct (Hfresh c) as [Hc1 Hc2]; [lia|].
      rewrite not_elem_of_union, not_elem_of_singleton. done.
    + intros j Hj. destruct (Hfresh j) as [Hj1 Hj2]; [lia|]. split.
      * rewrite not_elem_of_union, not_elem_of_singleton. done.
      * intros Heq. apply candidate_inj in Heq. lia.
    + rewrite size_union by (by apply disjoint_singleton_l).
      rewrite size_singleton. lia.
Qed.

Lemma while_has_terminates (fuel : nat) :
  size reserved < fuel → is_Some (while_has fuel reserved base base 1).
Proof.
  intros Hfuel. apply (while_has_terminates' _ _ _ ∅).
  - apply empty_subseteq.
  - apply not_elem_of_empty.
  - intros j _. split; [apply not_elem_of_empty | apply candidate_ne_base].
  - rewrite size_empty. lia.
Qed.

(** More iterations than needed do not change the result. *)
Lemma while_has_more_fuel (fuel fuel' : nat) (key : string) (c : N) (r : string) :
  while_has fuel reserved base key c = Some r → fuel ≤ fuel' →
  while_has fuel' reserved base key c = Some r.
Proof.
  revert fuel' key c.
  induction fuel as [|fuel IH]; intros fuel' key c; simpl; [discriminate|].
  intros H Hle. destruct fuel' as [|fuel']; [lia|]. simpl.
  destruct (decide (key ∈ reserved)); [|done].
  apply IH; [done | lia].
Qed.

(** Some suffixed candidate is free. *)
Lemma free_candidate_exists : ∃ k : N, (1 ≤ k)%N ∧ candidate base k ∉ reserved.
Proof.
  destruct (while_has_terminates' (S (size reserved)) (candidate base 1) 2 ∅)
    as [r Hr].
  - apply empty_subseteq.
  - apply not_elem_of_empty.
  - intros j Hj. split; [apply not_elem_of_empty|].
    intros Heq. apply candidate_inj in Heq. lia.
  - rewrite size_empty. lia.
  - apply while_has_sound in Hr as [Hfree [[_ ->] | [_ (k & Hk & -> & _)]]].
    + exists 1%N. split; [lia | done].
    + exists k. split; [lia | done].
Qed.

Lemma while_has_first_free (fuel : nat) (r : string) :
  while_has fuel reserved base base 1 = Some r →
  Described.first_free base reserved r.
Proof.
  intros H. apply while_has_sound in H as [Hfree [[Hb ->] | [Hb (k & Hk & -> & Hbelow)]]].
  - by left.
  - right. split; [done|]. exists k. done.
Qed.
End loop.

(** ** The regular expressions *)

Lemma drop_run_length (cls : ascii → bool) (s : string) :
  JS.drop (run_length cls s) s = drop_run cls s.
Proof.
  induction s as [|c r IH]; [reflexivity|].
  simpl. destruct (cls c); simpl; [exact IH | reflexivity].
Qed.

Lemma drop_run_shorter (cls : ascii → bool) (s : string) :
  String.length (drop_run cls s) ≤ String.length s.
Proof.
  induction s as [|c r IH]; simpl; [lia|].
  destruct (cls c); simpl; lia.
Qed.

Lemma drop_all (s : string) : JS.drop (String.length s) s = "".
Proof. induction s as [|c r IH]; [reflexivity | exact IH]. Qed.

(** Without an end anchor, [[cls]+] matches the whole leading run. *)
Lemma match_plus_run (cls : ascii → bool) (s : string) :
  JS.match_plus cls false s =
  match run_length cls s with 0 => None | S n => Some (S n) end.
Proof.
  induction s as [|c r IH]; [reflexivity|].
  simpl. destruct (cls c); [|reflexivity].
  rewrite IH. destruct (run_length cls r); reflexivity.
Qed.

(** Before an end anchor, [[cls]+] matches a string that is a run as a
    whole, and nothing else. *)
Lemma match_plus_to_end (cls : ascii → bool) (s : string) :
  JS.match_plus cls true s =
  if all_in cls s && JS.truthy s then Some (String.length s) else None.
Proof.
  induction s as [|c r IH]; [reflexivity|].
  simpl. destruct (cls c); [|reflexivity].
  rewrite IH. simpl. destruct r as [|c' r']; [reflexivity|].
  rewrite andb_true_r. destruct (all_in cls (String c' r')); reflexivity.
Qed.

(** A pattern anchored at the start matches nowhere else. *)
Lemma replace_from_anchored (re : JS.RegExp) (replacement s : string) :
  JS.anchor_start re = true → JS.replace_from re replacement false s = s.
Proof.
  intros Ha. induction s as [|c r IH]; simpl; unfold JS.match_at; rewrite Ha; simpl.
  - reflexivity.
  - rewrite IH. reflexivity.
Qed.

Lemma replace_leading_dashes (s : string) :
  JS.replace re_leading_dashes "" s = Described.strip_leading_dashes s.
Proof.
  unfold JS.replace. destruct s as [|c r]; [reflexivity|].
  simpl. unfold JS.match_at. simpl.
  destruct (is_dash c) eqn:Hc.
  - rewrite match_plus_run.
    assert (Hdrop : ∀ t, JS.drop (run_length is_dash t) t = Described.strip_leading_dashes t).
    { intros t. induction t as [|x t IH]; [reflexivity|].
      simpl. destruct (is_dash x); [exact IH | reflexivity]. }
    destruct (run_length is_dash r) eqn:Hn.
    + simpl. rewrite <- Hdrop, Hn. reflexivity.
    + simpl. rewrite <- Hdrop, Hn. reflexivity.
  - rewrite replace_from_anchored by reflexivity. reflexivity.
Qed.

Lemma all_in_app (cls : ascii → bool) (a b : string) :
  all_in cls (a +:+ b) = all_in cls a && all_in cls b.
Proof.
  induction a as [|x a IH]; [reflexivity|].
  rewrite app_cons. simpl. rewrite IH, andb_assoc. reflexivity.
Qed.

Lemma all_in_reverse (cls : ascii → bool) (s : string) :
  all_in cls (Described.reverse s) = all_in cls s.
Proof.
  induction s as [|c r IH]; [reflexivity|].
  simpl. rewrite all_in_app, IH. simpl. rewrite andb_true_r, andb_comm. reflexivity.
Qed.

Lemma reverse_app (a b : string) :
  Described.reverse (a +:+ b) = Described.reverse b +:+ Described.reverse a.
Proof.
  induction a as [|x a IH].
  - simpl. rewrite app_empty_r. reflexivity.
  - rewrite app_cons. simpl. rewrite IH, app_assoc_s. reflexivity.
Qed.

Lemma strip_leading_app (a b : string) :
  Described.strip_leading_dashes (a +:+ b) =
  if all_in is_dash a then Described.strip_leading_dashes b
  else Described.strip_leading_dashes a +:+ b.
Proof.
  induction a as [|x a IH]; [reflexivity|].
  rewrite app_cons. simpl. destruct (is_dash x); [exact IH | reflexivity].
Qed.

Lemma strip_leading_all (s : string) :
  all_in is_dash s = true → Described.strip_leading_dashes s = "".
Proof.
  induction s as [|c r IH]; [reflexivity|].
  simpl. destruct (is_dash c); [exact IH | discriminate].
Qed.

Lemma strip_trailing_cons (c : ascii) (r : string) :
  Described.strip_trailing_dashes (String c r) =
  if all_in is_dash (String c r) then ""
  else String c (Described.strip_trailing_dashes r).
Proof.
  unfold Described.strip_trailing_dashes. simpl.
  rewrite strip_leading_app, all_in_reverse.
  destruct (all_in is_dash r) eqn:Hr.
  - rewrite andb_true_r. simpl.
    rewrite (strip_leading_all (Described.reverse r)) by (by rewrite all_in_reverse).
    destruct (is_dash c); reflexivity.
  - rewrite andb_false_r. rewrite reverse_app. reflexivity.
Qed.

Lemma replace_from_trailing_dashes (bol : bool) (s : string) :
  JS.replace_from re_trailing_dashes "" bol s = Described.strip_trailing_dashes s.
Proof.
  revert bol. induction s as [|c r IH]; intros bol; [reflexivity|].
  rewrite strip_trailing_cons.
  cbn [JS.replace_from]. unfold JS.match_at.
  cbn [JS.anchor_start JS.anchor_end JS.class re_trailing_dashes andb].
  rewrite match_plus_to_end. cbn [JS.truthy]. rewrite andb_true_r.
  destruct (all_in is_dash (String c r)).
  - rewrite drop_all. reflexivity.
  - rewrite IH. reflexivity.
Qed.

Lemma replace_trailing_dashes (s : string) :
  JS.replace re_trailing_dashes "" s = Described.strip_trailing_dashes s.
Proof. apply replace_from_trailing_dashes. Qed.

(** The scan of [replace_all_from] is as if it restarted behind the
    characters that it skips. *)
Lemma replace_all_skip (re : JS.RegExp) (replacement : string) (k : nat) (bol : bool)
    (c : ascii) (r : string) :
  JS.replace_all_from re replacement (S k) bol (String c r) =
  JS.replace_all_from re replacement k false r.
Proof. reflexivity. Qed.

Lemma replace_all_skip_run (re : JS.RegExp) (replacement : string) (cls : ascii → bool)
    (s : string) :
  JS.replace_all_from re replacement (run_length cls s) false s =
  JS.replace_all_from re replacement 0 false (drop_run cls s).
Proof.
  induction s as [|c r IH]; [reflexivity|].
  simpl run_length. simpl drop_run. destruct (cls c); [|reflexivity].
  rewrite replace_all_skip. exact IH.
Qed.

Lemma replace_all_not_key_cons (bol : bool) (c : ascii) (r : string) :
  JS.replace_all_from re_not_key_chars "-" 0 bol (String c r) =
  if key_char c
  then String c (JS.replace_all_from re_not_key_chars "-" 0 false r)
  else "-" +:+ JS.replace_all_from re_not_key_chars "-" 0 false (drop_run not_key_char r).
Proof.
  cbn [JS.replace_all_from]. unfold JS.match_at.
  cbn [JS.anchor_start JS.anchor_end JS.class re_not_key_chars andb].
  rewrite match_plus_run. cbn [run_length].
  destruct (key_char c); cbn [negb]; [reflexivity|].
  cbn [Nat.pred]. f_equal. apply (replace_all_skip_run _ _ not_key_char).
Qed.

Lemma runs_head (c : ascii) (r : string) :
  ∃ run rest, Described.runs (String c r) = (key_char c, run) :: rest.
Proof.
  simpl. destruct (Described.runs r) as [|[b run] rest]; [by eexists _, _|].
  destruct (Bool.eqb b (key_char c)) eqn:Hb.
  - apply Bool.eqb_prop in Hb as ->. by eexists _, _.
  - by eexists _, _.
Qed.

(** [Described.runs] cuts a string into its maximal runs: the runs make up
    the string, each lies on one side of the class, and neighbours lie on
    different sides. *)
Lemma runs_concat (s : string) :
  foldr (fun r acc => snd r +:+ acc) "" (Described.runs s) = s.
Proof.
  induction s as [|c r IH]; [reflexivity|].
  cbn [Described.runs]. destruct (Described.runs r) as [|[b run] rest].
  - simpl in IH. subst r. reflexivity.
  - destruct (Bool.eqb b (key_char c)); simpl in *; rewrite ?app_cons; by rewrite IH.
Qed.

Lemma runs_homogeneous (s : string) : Forall homogeneous (Described.runs s).
Proof.
  induction s as [|c r IH]; [constructor|].
  cbn [Described.runs]. destruct (Described.runs r) as [|[b run] rest].
  - constructor; [|constructor]. split; [discriminate|].
    simpl. by rewrite Bool.eqb_reflx.
  - apply Forall_cons in IH as [[Hne Hall] Hrest].
    destruct (Bool.eqb b (key_char c)) eqn:Hb.
    + constructor; [|done]. split; [discriminate|].
      simpl in *. rewrite Hall, andb_true_r.
      apply Bool.eqb_prop in Hb as ->. apply Bool.eqb_reflx.
    + constructor; [|by constructor]. split; [discriminate|].
      simpl. by rewrite Bool.eqb_reflx.
Qed.

Lemma runs_alternating (s : string) : alternating (Described.runs s).
Proof.
  induction s as [|c r IH]; [exact I|].
  cbn [Described.runs]. destruct (Described.runs r) as [|[b run] rest]; [exact I|].
  destruct (Bool.eqb b (key_char c)) eqn:Hb.
  - destruct rest; [exact I|]. exact IH.
  - split; [|exact IH]. simpl. intros Heq. subst b.
    by rewrite Bool.eqb_reflx in Hb.
Qed.

(** A character outside the class opens a run that extends over the
    characters outside the class that follow it. *)
Lemma runs_not_key (c : ascii) (r : string) :
  key_char c = false →
  ∃ run, Described.runs (String c r) = (false, run) :: Described.runs (drop_run not_key_char r).
Proof.
  revert c. induction r as [|c' r' IH]; intros c Hc.
  - simpl. rewrite Hc. by eexists.
  - cbn [drop_run]. unfold not_key_char at 1.
    destruct (key_char c') eqn:Hc'; cbn [negb].
    + destruct (runs_head c' r') as (run & rest & Hruns).
      cbn [Described.runs] in *. rewrite Hruns, Hc', Hc. simpl. by eexists.
    + destruct (IH c' Hc') as [run Hruns].
      cbn [Described.runs] in *. rewrite Hruns, Hc. simpl. by eexists.
Qed.

Lemma replace_runs_key (c : ascii) (r : string) :
  key_char c = true →
  Described.replace_runs (String c r) = String c (Described.replace_runs r).
Proof.
  intros Hc. unfold Described.replace_runs. cbn [Described.runs].
  destruct (Described.runs r) as [|[b run] rest]; rewrite ?Hc.
  - reflexivity.
  - destruct b; reflexivity.
Qed.

Lemma replace_runs_not_key (c : ascii) (r : string) :
  key_char c = false →
  Described.replace_runs (String c r) =
  "-" +:+ Described.replace_runs (drop_run not_key_char r).
Proof.
  intros Hc. unfold Described.replace_runs.
  destruct (runs_not_key c r Hc) as [run ->]. reflexivity.
Qed.

Lemma replace_all_from_not_key_chars (bol : bool) (s : string) :
  JS.replace_all_from re_not_key_chars "-" 0 bol s = Described.replace_runs s.
Proof.
  remember (String.length s) as n eqn:Hn.
  assert (Hle : String.length s ≤ n) by lia. clear Hn.
  revert s bol Hle. induction n as [|n IH]; intros s bol Hle.
  - destruct s; [reflexivity | simpl in Hle; lia].
  - destruct s as [|c r]; [reflexivity|].
    simpl in Hle. rewrite replace_all_not_key_cons.
    destruct (key_char c) eqn:Hc.
    + rewrite replace_runs_key by done. rewrite IH by lia. reflexivity.
    + rewrite replace_runs_not_key by done. rewrite IH; [reflexivity|].
      pose proof (drop_run_shorter not_key_char r). lia.
Qed.

Lemma replace_all_not_key_chars (s : string) :
  JS.replace_all re_not_key_chars "-" s = Described.replace_runs s.
Proof. apply replace_all_from_not_key_chars. Qed.

(** The code's normalisation is the described one. *)
Lemma baseKey_normalize (name : string) : baseKey name = Described.normalize name.
Proof.
  unfold baseKey, Described.normalize.
  rewrite replace_all_not_key_chars, replace_trailing_dashes, replace_leading_dashes.
  reflexivity.
Qed.

(** ** The slug generator *)

Example baseKey_pricing : baseKey "Pricing Page!!" = "pricing-page".
Proof. reflexivity. Qed.

(** Dashes of the name are key characters: they are kept next to the dash
    that replaces a run. *)
Example baseKey_dashes : baseKey "--A - b__C--" = "a---b__c".
Proof. reflexivity. Qed.

Lemma generateFeatureFlagKey_returns (name : string) (reserved : gset string) :
  ∃ key, generateFeatureFlagKey name reserved = Some key.
Proof.
  unfold generateFeatureFlagKey, generateFeatureFlagKey_fuel.
  apply while_has_terminates. lia.
Qed.

(** C2: for every name and every finite reserved set, generateFeatureFlagKey
    returns a key, and that key is not a member of the reserved set. *)
Theorem generateFeatureFlagKey_not_reserved (name : string) (reserved : gset string) :
  ∃ key, generateFeatureFlagKey name reserved = Some key ∧ key ∉ reserved.
Proof.
  destruct (generateFeatureFlagKey_returns name reserved) as [key Hkey].
  exists key. split; [done|].
  unfold generateFeatureFlagKey, generateFeatureFlagKey_fuel in Hkey.
  by apply while_has_sound in Hkey as [Hfree _].
Qed.

(** C10: the collision loop terminates for every name and every finite
    reserved set: some suffixed candidate base-k is absent from the set, and
    the loop returns a key within one more iteration than the set has
    elements, the same key under every larger bound. *)
Theorem generateFeatureFlagKey_terminates (name : string) (reserved : gset string) :
  (∃ k : N, (1 ≤ k)%N ∧ candidate (baseKey name) k ∉ reserved) ∧
  ∃ key, ∀ fuel, size reserved < fuel →
                 generateFeatureFlagKey_fuel fuel name reserved = Some key.
Proof.
  split; [apply free_candidate_exists|].
  destruct (generateFeatureFlagKey_returns name reserved) as [key Hkey].
  exists key. intros fuel Hfuel.
  unfold generateFeatureFlagKey, generateFeatureFlagKey_fuel in *.
  apply (while_has_more_fuel _ _ (S (size reserved))); [done | lia].
Qed.

(** C5: generateFeatureFlagKey normalises the name as described (lowercase,
    every maximal run of characters outside [A-Za-z0-9-_] replaced by one
    dash, leading and trailing dashes stripped) and returns the base if it is
    free, else the first free base-1, base-2, ...; "Pricing Page!!" gives
    "pricing-page", "test" gives "test-1" against {"test"} and "test-2"
    against {"test", "test-1"}. *)
Theorem generateFeatureFlagKey_described :
  (∀ (name : string) (reserved : gset string),
     baseKey name = Described.normalize name ∧
     ∃ key, generateFeatureFlagKey name reserved = Some key ∧
            Described.first_free (Described.normalize name) reserved key) ∧
  generateFeatureFlagKey "Pricing Page!!" ∅ = Some "pricing-page" ∧
  generateFeatureFlagKey "test" {[ "test" ]} = Some "test-1" ∧
  generateFeatureFlagKey "test" {[ "test"; "test-1" ]} = Some "test-2".
Proof.
  split; [|by vm_compute].
  intros name reserved. split; [apply baseKey_normalize|].
  destruct (generateFeatureFlagKey_returns name reserved) as [key Hkey].
  exists key. split; [done|].
  rewrite <- baseKey_normalize.
  unfold generateFeatureFlagKey, generateFeatureFlagKey_fuel in Hkey.
  by apply while_has_first_free in Hkey.
Qed.

Lemma drop_run_all (cls : ascii → bool) (s : string) :
  all_in cls s = true → drop_run cls s = "".
Proof.
  induction s as [|c r IH]; [done|].
  simpl. destruct (cls c); [exact IH | discriminate].
Qed.

(** A name whose lowercase form has no key character has the empty base. *)
Lemma baseKey_no_key_char (name : string) :
  no_key_char (JS.toLowerCase name) = true → baseKey name = "".
Proof.
  intros H. rewrite baseKey_normalize.
  unfold Described.normalize. destruct (JS.toLowerCase name) as [|c r]; [reflexivity|].
  unfold no_key_char in H. simpl in H. apply andb_true_iff in H as [Hc Hr].
  unfold not_key_char in Hc. apply negb_true_iff in Hc.
  rewrite replace_runs_not_key by done.
  rewrite (drop_run_all _ _ Hr). reflexivity.
Qed.

(** C6, as stated, fails: a name without key characters and a reserved set
    without the empty string give the empty key. *)
Lemma generateFeatureFlagKey_empty_key :
  no_key_char "!!!" = true ∧ generateFeatureFlagKey "!!!" ∅ = Some "".
Proof. by vm_compute. Qed.

(** C6, amended: for every name whose lowercase form, the string that the
    patterns are applied to, has no character of [A-Za-z0-9-_], the base is
    empty and generateFeatureFlagKey returns a key for any reserved set: the
    empty string when the set does not hold it, else the first free of "-1",
    "-2", ..., which is not empty. *)
Theorem generateFeatureFlagKey_no_key_char (name : string) (reserved : gset string) :
  no_key_char (JS.toLowerCase name) = true →
  baseKey name = "" ∧
  ∃ key, generateFeatureFlagKey name reserved = Some key ∧
         Described.first_free "" reserved key ∧
         (key ≠ "" ↔ "" ∈ reserved).
Proof.
  intros Hname. pose proof (baseKey_no_key_char name Hname) as Hbase.
  split; [done|].
  destruct (generateFeatureFlagKey_returns name reserved) as [key Hkey].
  exists key. split; [done|].
  unfold generateFeatureFlagKey, generateFeatureFlagKey_fuel in Hkey.
  rewrite Hbase in Hkey. apply while_has_first_free in Hkey.
  split; [done|].
  destruct Hkey as [[Hfree ->] | [Hres (k & Hk & -> & _)]].
  - split; [done | intros Hin; by destruct Hfree].
  - split; [done | intros _; apply candidate_empty].
Qed.

Lemma generateFeatureFlagKey_no_key_char_witness :
  no_key_char (JS.toLowerCase "?! ") = true ∧
  generateFeatureFlagKey "?! " {[ ""; "-1" ]} = Some "-2" ∧
  baseKey "?! " = "" ∧
  ∃ key, generateFeatureFlagKey "?! " {[ ""; "-1" ]} = Some key ∧
         Described.first_free "" {[ ""; "-1" ]} key ∧
         (key ≠ "" ↔ "" ∈ ({[ ""; "-1" ]} : gset string)).
Proof.
  split; [by vm_compute|]. split; [by vm_compute|].
  apply (generateFeatureFlagKey_no_key_char "?! " {[ ""; "-1" ]}).
  by vm_compute.
Defined.

(** ** The variant allocator *)

Lemma or_zero_id (x : Z) : or_zero x = x.
Proof. unfold or_zero. destruct (Z.eqb_spec x 0); lia. Qed.

Lemma fold_left_shares (variants : list MultivariateFlagVariant) (acc : Z) :
  fold_left (fun sum variant => (sum + or_zero (rollout_percentage variant))%Z) variants acc
  = (acc + foldr Z.add 0 (rollout_percentage <$> variants))%Z.
Proof.
  revert acc. induction variants as [|x l IH]; intros acc; csimpl; [lia|].
  rewrite IH, or_zero_id. lia.
Qed.

(** The selector adds up the shares. *)
Lemma variantPercentageSum_shares (variants : list MultivariateFlagVariant) :
  variantPercentageSum variants = foldr Z.add 0%Z (rollout_percentage <$> variants).
Proof. unfold variantPercentageSum. rewrite fold_left_shares. lia. Qed.

Lemma sum_replicate (n : nat) (x : Z) (tail : list Z) :
  foldr Z.add 0%Z (replicate n x ++ tail) = (Z.of_nat n * x + foldr Z.add 0 tail)%Z.
Proof. induction n as [|n IH]; simpl; [lia|]. rewrite IH. lia. Qed.

(** The shares that [distributeVariantsEqually] writes: [share] everywhere
    but at index [last]. *)
Lemma imap_shares (variants : list MultivariateFlagVariant) (share other : Z) :
  variants ≠ [] →
  rollout_percentage <$>
    imap (fun index variant =>
            with_rollout variant
              (if (index =? length variants - 1)%nat then other else share)) variants
  = replicate (length variants - 1) share ++ [other].
Proof.
  intros Hne. apply list_eq. intros i.
  rewrite list_lookup_fmap, list_lookup_imap.
  assert (Hlen : 0 < length variants) by (destruct variants; [done | simpl; lia]).
  destruct (variants !! i) as [x|] eqn:Hi; simpl.
  - apply lookup_lt_Some in Hi.
    destruct (Nat.eqb_spec i (length variants - 1)) as [->|Hi'].
    + rewrite lookup_app_r by (rewrite length_replicate; lia).
      rewrite length_replicate, Nat.sub_diag. reflexivity.
    + rewrite lookup_app_l by (rewrite length_replicate; lia).
      symmetry. apply lookup_replicate_2. lia.
  - apply lookup_ge_None in Hi. symmetry. apply lookup_ge_None.
    rewrite length_app, length_replicate. simpl. lia.
Qed.

Lemma imap_keeps_keys (variants : list MultivariateFlagVariant) (f : nat → Z) :
  variant_key <$> imap (fun index variant => with_rollout variant (f index)) variants
  = variant_key <$> variants
  ∧ variant_name <$> imap (fun index variant => with_rollout variant (f index)) variants
  = variant_name <$> variants.
Proof.
  split; apply list_eq; intros i; rewrite !list_lookup_fmap, list_lookup_imap;
    destruct (variants !! i); reflexivity.
Qed.

(** C1: distributeVariantsEqually on N >= 1 variants gives round(100 / N) to
    every variant but the last, round(100 / N) - (round(100 / N) * N - 100)
    to the last, the shares then add up to exactly 100, and keys and names
    are kept; on no variant it does nothing. *)
Theorem distributeVariantsEqually_shares (v : Values) :
  let variants := variants_or_empty v in
  let n := length variants in
  let base := Math_round_div 100 (Z.of_nat n) in
  let result := distributeVariantsEqually v in
  let updated := variants_or_empty (final_values result) in
  (n = 0 → result = (tt, v, [])) ∧
  (1 ≤ n →
     rollout_percentage <$> updated
       = replicate (n - 1) base ++ [(base - (base * Z.of_nat n - 100))%Z] ∧
     variantPercentageSum updated = 100%Z ∧
     variant_key <$> updated = variant_key <$> variants ∧
     variant_name <$> updated = variant_name <$> variants ∧
     effects result = []).
Proof.
  intros variants n base result updated. split.
  - intros Hn. subst result. unfold distributeVariantsEqually.
    unfold mbind, listener_bind, values. fold variants. fold n. rewrite Hn. reflexivity.
  - intros Hn.
    assert (Hne : variants ≠ []) by (intros H; subst n; rewrite H in Hn; simpl in Hn; lia).
    assert (Hupd : updated =
      imap (fun index variant =>
              with_rollout variant
                (if (index =? n - 1)%nat
                 then (base - (base * Z.of_nat n - 100))%Z else base)) variants).
    { subst updated result. unfold distributeVariantsEqually.
      unfold mbind, listener_bind, values. fold variants. fold n.
      destruct (Nat.eqb_spec n 0) as [H0|_]; [lia|]. reflexivity. }
    assert (Hshares : rollout_percentage <$> updated
       = replicate (n - 1) base ++ [(base - (base * Z.of_nat n - 100))%Z]).
    { rewrite Hupd. subst n. by apply imap_shares. }
    split; [exact Hshares|]. split.
    { rewrite variantPercentageSum_shares, Hshares, sum_replicate. simpl.
      rewrite Nat2Z.inj_sub by lia. lia. }
    destruct (imap_keeps_keys variants
      (fun index => if (index =? n - 1)%nat
                    then (base - (base * Z.of_nat n - 100))%Z else base)) as [Hk Hn'].
    rewrite Hupd. split; [exact Hk|]. split; [exact Hn'|].
    subst result. unfold distributeVariantsEqually.
    unfold mbind, listener_bind, values. fold variants. fold n.
    destruct (Nat.eqb_spec n 0) as [H0|_]; [lia|]. reflexivity.
Qed.

Lemma distributeVariantsEqually_shares_witness :
  distributeVariantsEqually (values_of_variants 0) = (tt, values_of_variants 0, []) ∧
  rollout_percentage <$>
    variants_or_empty
      (final_values (distributeVariantsEqually (final_values (addVariant initial_values))))
  = [33; 33; 34]%Z.
Proof.
  split.
  - destruct (distributeVariantsEqually_shares (values_of_variants 0)) as [H _].
    apply H. reflexivity.
  - destruct (distributeVariantsEqually_shares (final_values (addVariant initial_values)))
      as [_ H].
    destruct H as [H _]; [vm_compute; lia|]. exact H.
Defined.

Example distribute_three : distributed_shares 3 = [33; 33; 34]%Z.
Proof. reflexivity. Qed.

Example distribute_four : distributed_shares 4 = [25; 25; 25; 25]%Z.
Proof. reflexivity. Qed.

(** A half is rounded up, and the last share takes the excess. *)
Example distribute_eight : distributed_shares 8 = [13; 13; 13; 13; 13; 13; 13; 9]%Z.
Proof. reflexivity. Qed.

Lemma filter_indexed_keeps {A : Type} (index : Z) (k : nat) (l : list A) :
  (index < Z.of_nat k)%Z →
  filter_indexed (fun _ i => negb (Z.of_nat i =? index)%Z) k l = l.
Proof.
  revert k. induction l as [|x r IH]; intros k Hk; [reflexivity|].
  simpl. destruct (Z.eqb_spec (Z.of_nat k) index); [lia|].
  simpl. rewrite IH by lia. reflexivity.
Qed.

(** Filtering on [i !== index] deletes the element at [index]. *)
Lemma filter_indexed_delete {A : Type} (i k : nat) (l : list A) :
  filter_indexed (fun _ j => negb (Z.of_nat j =? Z.of_nat (k + i))%Z) k l = delete i l.
Proof.
  revert i k. induction l as [|x r IH]; intros i k; [reflexivity|].
  simpl. destruct i as [|i].
  - rewrite Nat.add_0_r, Z.eqb_refl. simpl. apply filter_indexed_keeps. lia.
  - destruct (Z.eqb_spec (Z.of_nat k) (Z.of_nat (k + S i))); [lia|].
    simpl. f_equal. replace (k + S i) with (S k + i) by lia. apply IH.
Qed.

Lemma filter_indexed_sublist {A : Type} (p : A → nat → bool) (k : nat) (l : list A) :
  filter_indexed p k l `sublist_of` l.
Proof.
  revert k. induction l as [|x r IH]; intros k; simpl; [constructor|].
  destruct (p x k); [apply sublist_skip | apply sublist_cons]; apply IH.
Qed.

(** C8: on a list of at most 2 variants removeVariant is rejected with an
    error toast and changes nothing; on a longer list and a valid index it
    deletes exactly the element at that index, the later ones moving down by
    one, and leaves every other variant as it was. *)
Theorem removeVariant_minimum (v : Values) (index : Z) :
  let variants := variants_or_empty v in
  let result := removeVariant index v in
  let updated := variants_or_empty (final_values result) in
  (length variants ≤ 2 →
     result = (tt, v, [ToastError "Experiments must have at least 2 variants"])) ∧
  (2 < length variants → (0 ≤ index < Z.of_nat (length variants))%Z →
     updated = take (Z.to_nat index) variants ++ drop (S (Z.to_nat index)) variants ∧
     length updated = length variants - 1 ∧
     (∀ j, j < Z.to_nat index → updated !! j = variants !! j) ∧
     (∀ j, Z.to_nat index ≤ j → updated !! j = variants !! S j) ∧
     effects result = []).
Proof.
  intros variants result updated. split.
  - intros Hlen. subst result. unfold removeVariant.
    unfold mbind, listener_bind, values. fold variants.
    destruct (Nat.leb_spec (length variants) 2) as [_|H]; [reflexivity | lia].
  - intros Hlen Hidx.
    assert (Hupd : updated = delete (Z.to_nat index) variants ∧ effects result = []).
    { subst updated result. unfold removeVariant.
      unfold mbind, listener_bind, values. fold variants.
      destruct (Nat.leb_spec (length variants) 2) as [H|_]; [lia|].
      split; [|reflexivity]. simpl.
      rewrite <- (filter_indexed_delete (Z.to_nat index) 0 variants).
      simpl. rewrite Z2Nat.id by lia. reflexivity. }
    destruct Hupd as [Hupd Heff]. rewrite Hupd.
    split; [apply delete_take_drop|]. split.
    { rewrite length_delete; [reflexivity|]. apply lookup_lt_is_Some. lia. }
    split; [|split; [|exact Heff]].
    + intros j Hj. by apply list_lookup_delete_lt.
    + intros j Hj. by apply list_lookup_delete_ge.
Qed.

Lemma removeVariant_minimum_witness :
  removeVariant 1 initial_values
    = (tt, initial_values, [ToastError "Experiments must have at least 2 variants"]) ∧
  variant_key <$>
    variants_or_empty
      (final_values (removeVariant 1 (final_values (addVariant initial_values))))
    = ["control"; "variant-3"].
Proof.
  split.
  - destruct (removeVariant_minimum initial_values 1) as [H _].
    apply H. vm_compute. lia.
  - destruct (removeVariant_minimum (final_values (addVariant initial_values)) 1)
      as [_ H].
    destruct H as [H _]; [vm_compute; lia | split; by vm_compute |].
    rewrite H. reflexivity.
Defined.

(** C9: addVariant appends exactly one variant, with key "variant-<N+1>"
    for the current length N, the empty name and share 0; the variants that
    were there keep their key, name, share and order; and neither addVariant
    nor removeVariant changes a share of a variant that stays. *)
Theorem addVariant_appends (v : Values) (index : Z) :
  let variants := variants_or_empty v in
  let added := variants_or_empty (final_values (addVariant v)) in
  let removed := variants_or_empty (final_values (removeVariant index v)) in
  added = variants ++
            [ {| variant_key := "variant-" +:+ pretty (N.of_nat (length variants + 1));
                 variant_name := Some "";
                 rollout_percentage := 0 |} ] ∧
  take (length variants) added = variants ∧
  effects (addVariant v) = [] ∧
  removed `sublist_of` variants.
Proof.
  intros variants added removed.
  assert (Hadd : added = variants ++ [newVariant variants]) by reflexivity.
  split; [exact Hadd|]. split; [by rewrite Hadd, take_app_length|].
  split; [reflexivity|].
  subst removed. unfold removeVariant.
  unfold mbind, listener_bind, values. fold variants.
  destruct (length variants <=? 2)%nat; [done|].
  apply filter_indexed_sublist.
Qed.

(** ** Saving *)

Lemma truthy_true (s : string) : JS.truthy s = true ↔ s ≠ "".
Proof. destruct s; simpl; split; (done || discriminate || intros H; by destruct H). Qed.

Lemma hasFormErrors_false (f : ExperimentForm) :
  hasFormErrors (errors f) = false ↔
  JS.trim (form_name f) ≠ "" ∧ JS.trim (feature_flag_key f) ≠ "".
Proof.
  unfold hasFormErrors, errors. simpl.
  rewrite <- !truthy_true.
  destruct (JS.truthy (JS.trim (form_name f)));
    destruct (JS.truthy (JS.trim (feature_flag_key f))); simpl; split;
    (done || intros [? ?]; discriminate).
Qed.

(** What [saveAsDraft] decides on. *)
Lemma saveAsDraft_submitted (shown : FormErrors → FormErrors) (v : Values) :
  submitted (saveAsDraft shown v) =
  negb (hasFormErrors (experimentFormErrors shown (experimentForm v))) &&
  match featureFlagMode v, selectedFeatureFlag v with
  | ModeExisting, None => false
  | _, _ => true
  end.
Proof.
  destruct v as [mode selected error form]. unfold submitted, saveAsDraft, effects.
  unfold mbind, listener_bind, values, emit, mret, listener_ret,
    setExperimentFormValue, modify.
  cbv beta iota zeta delta [featureFlagMode selectedFeatureFlag experimentForm].
  destruct mode, selected;
    destruct (hasFormErrors (experimentFormErrors shown form)); reflexivity.
Qed.

(** C4, as stated, fails: with name and key filled in and shares that add
    up to 90, saveAsDraft submits the form. *)
Lemma saveAsDraft_submits_unbalanced :
  variantPercentageSum (variants_or_empty unbalanced_values) = 90%Z ∧
  submitted (saveAsDraft all_shown unbalanced_values) = true.
Proof. by vm_compute. Qed.

(** C4, amended: saveAsDraft does not read the shares, its outcome is the
    same for every list of variants.  With the name and the feature flag key
    filled in it submits the form, unless the mode is that of an existing
    flag and none is selected, whether the shares add up to 100 or not. *)
Theorem saveAsDraft_gate (shown : FormErrors → FormErrors) (v : Values) :
  (∀ e, hasFormErrors e = false → hasFormErrors (shown e) = false) →
  (required_fields_filled v →
     (submitted (saveAsDraft shown v) = true ↔
        (featureFlagMode v = ModeExisting → is_Some (selectedFeatureFlag v)))) ∧
  (∀ p : Parameters,
     submitted (saveAsDraft shown (with_parameters v p))
     = submitted (saveAsDraft shown v)).
Proof.
  intros Hshown. split.
  - intros Hfilled. rewrite saveAsDraft_submitted.
    unfold experimentFormErrors. rewrite Hshown by (by apply hasFormErrors_false).
    simpl. destruct (featureFlagMode v), (selectedFeatureFlag v); split;
      try done; try (by eexists).
    intros H. by destruct H as [? ?].
  - intros p. rewrite !saveAsDraft_submitted. reflexivity.
Qed.

Lemma saveAsDraft_gate_witness :
  submitted (saveAsDraft all_shown (final_values (distributeVariantsEqually unbalanced_values)))
  = true.
Proof.
  destruct (saveAsDraft_gate all_shown
              (final_values (distributeVariantsEqually unbalanced_values))) as [H _].
  - intros e He. exact He.
  - apply H; [by vm_compute | intros Hmode; discriminate Hmode].
Defined.

(** ** The uniqueness validator *)

Lemma find_flag_registry (results : option (list FeatureFlagType)) (key : string) :
  is_Some (find_flag results key) ↔ registry_has (ApiResults results) key.
Proof.
  unfold find_flag, registry_has. split.
  - intros [flag Hflag]. destruct results as [results|]; [|discriminate].
    simpl in Hflag. apply find_some in Hflag as [Hin Hkey].
    exists results, flag. split; [done|]. split.
    + by apply list_elem_of_In.
    + by apply bool_decide_eq_true in Hkey.
  - intros (results' & flag & [= ->] & Hin & Hkey). simpl.
    destruct (find _ results') as [found|] eqn:Hfind; [by eexists|].
    apply list_elem_of_In in Hin.
    pose proof (find_none _ _ Hfind flag Hin) as Hnone. simpl in Hnone.
    apply bool_decide_eq_false in Hnone. by destruct Hnone.
Qed.

Lemma registry_has_failure (key : string) : ¬ registry_has ApiFailure key.
Proof. intros (results & flag & Heq & _). discriminate Heq. Qed.

(** C7: the code at the inputs where the claim fails, and at every other
    one.  validateFeatureFlagKey on a key that is empty after trimming makes
    no remote call and dispatches the failure "Feature flag key is required";
    on any other key it makes one lookup and dispatches the failure "This
    feature flag key is already in use" when the response holds a record
    whose key is the candidate, the success when it holds none, and the
    failure "Error validating feature flag key" when the lookup fails.  In
    every branch the function then returns, the success action of
    kea-loaders follows, and the error ends as null, whatever it was. *)
Theorem validateFeatureFlagKey_clears_error
    (api : string → ApiResponse) (key : string) (state : option string) :
  let r := run_with api key (validateFeatureFlagKey key) in
  error_after state r = None ∧
  (JS.trim key = "" →
     remote_calls r = [] ∧
     dispatched r = [validateFeatureFlagKeyFailure "Feature flag key is required";
                     validateFeatureFlagKeySuccess None key] ∧
     returned r = None) ∧
  (JS.trim key ≠ "" →
     remote_calls r = [key] ∧
     (registry_has (api key) key →
        dispatched r = [validateFeatureFlagKeyFailure "This feature flag key is already in use";
                        validateFeatureFlagKeySuccess (Some {| available := false |}) key] ∧
        returned r = Some {| available := false |}) ∧
     (∀ results, api key = ApiResults results → ¬ registry_has (api key) key →
        dispatched r = [validateFeatureFlagKeySuccess (Some {| available := true |}) key;
                        validateFeatureFlagKeySuccess (Some {| available := true |}) key] ∧
        returned r = Some {| available := true |}) ∧
     (api key = ApiFailure →
        dispatched r = [validateFeatureFlagKeyFailure "Error validating feature flag key";
                        validateFeatureFlagKeySuccess None key] ∧
        returned r = None)).
Proof.
  intros r. subst r. unfold validateFeatureFlagKey.
  destruct (JS.truthy (JS.trim key)) eqn:Hkey; simpl.
  - split; [|split].
    + unfold error_after. destruct (api key) as [|results]; [reflexivity|].
      destruct (find_flag results key); reflexivity.
    + intros Hblank. rewrite Hblank in Hkey. discriminate Hkey.
    + intros _. destruct (api key) as [|results] eqn:Hapi.
      * simpl. split; [reflexivity|]. split; [|split].
        -- intros H. by apply registry_has_failure in H.
        -- discriminate.
        -- done.
      * pose proof (find_flag_registry results key) as Hreg.
        destruct (find_flag results key) as [flag|]; simpl.
        -- assert (Hhas : registry_has (ApiResults results) key) by (apply Hreg; by eexists).
           split; [reflexivity|]. split; [done|]. split; [|discriminate].
           intros ? _ Hno. by destruct Hno.
        -- assert (Hno : ¬ registry_has (ApiResults results) key).
           { intros H. apply Hreg in H as [? H]. discriminate H. }
           split; [reflexivity|]. split; [done|]. split; [done|]. discriminate.
  - split; [reflexivity|]. split; [done|].
    intros Hne%truthy_true. congruence.
Qed.

Lemma validateFeatureFlagKey_clears_error_witness :
  dispatched (run_with pricing_registry "" (validateFeatureFlagKey ""))
  = [validateFeatureFlagKeyFailure "Feature flag key is required";
     validateFeatureFlagKeySuccess None ""] ∧
  error_after None (run_with pricing_registry "" (validateFeatureFlagKey "")) = None ∧
  dispatched (run_with pricing_registry "pricing-page" (validateFeatureFlagKey "pricing-page"))
  = [validateFeatureFlagKeyFailure "This feature flag key is already in use";
     validateFeatureFlagKeySuccess (Some {| available := false |}) "pricing-page"] ∧
  error_after None
    (run_with pricing_registry "pricing-page" (validateFeatureFlagKey "pricing-page")) = None ∧
  dispatched
    (run_with unreachable_registry "pricing-page" (validateFeatureFlagKey "pricing-page"))
  = [validateFeatureFlagKeyFailure "Error validating feature flag key";
     validateFeatureFlagKeySuccess None "pricing-page"].
Proof.
  split; [|split; [|split; [|split]]].
  - destruct (validateFeatureFlagKey_clears_error pricing_registry "" None) as (_ & H & _).
    destruct H as (_ & H & _); [reflexivity | exact H].
  - destruct (validateFeatureFlagKey_clears_error pricing_registry "" None) as [H _].
    exact H.
  - destruct (validateFeatureFlagKey_clears_error pricing_registry "pricing-page" None)
      as (_ & _ & H).
    destruct H as (_ & H & _); [discriminate|].
    apply H. eexists _, {| flag_key := "pricing-page"; flag_name := None |}.
    split; [reflexivity|]. split; [|reflexivity].
    apply list_elem_of_In. right. left. reflexivity.
  - destruct (validateFeatureFlagKey_clears_error pricing_registry "pricing-page" None)
      as [H _].
    exact H.
  - destruct (validateFeatureFlagKey_clears_error unreachable_registry "pricing-page" None)
      as (_ & _ & H).
    destruct H as (_ & _ & _ & H); [discriminate|].
    apply H. reflexivity.
Defined.

(** ** Validations in flight *)

(** The value that the loader function returns says whether the response
    holds the key. *)
Lemma validation_of_registry (key : string) (response : ApiResponse) :
  (validation_of key response = Some {| available := false |} ↔ registry_has response key) ∧
  (validation_of key response = None ↔ response = ApiFailure).
Proof.
  destruct response as [|results]; simpl.
  - split; [|done]. split; [discriminate|]. intros H. by apply registry_has_failure in H.
  - pose proof (find_flag_registry results key) as Hreg.
    destruct (find_flag results key) as [flag|]; (split; [|split; discriminate]).
    + split; [|done]. intros _. apply Hreg. by eexists.
    + split; [discriminate|]. intros H. apply Hreg in H as [? H]. discriminate H.
Qed.

Lemma validateFeatureFlagKey_suspends (key : string) (s : Session) :
  JS.trim key ≠ "" →
  ∃ k, validateFeatureFlagKey key = Await key k ∧
       in_flight (advance key (validateFeatureFlagKey key) s) = in_flight s ++ [(key, k)] ∧
       validationError (advance key (validateFeatureFlagKey key) s) = validationError s ∧
       featureFlagValidation (advance key (validateFeatureFlagKey key) s)
       = featureFlagValidation s.
Proof.
  intros Hkey%truthy_true. unfold validateFeatureFlagKey. rewrite Hkey. simpl.
  eexists. split; [reflexivity|]. by repeat split.
Qed.

(** The arrival of a response clears the error and stores the value returned
    for the key of its request, whatever else is in flight and whatever was
    held before. *)
Lemma response_settles (s : Session) (n : nat) (key : string)
    (k : ApiResponse → Async (option Validation)) (response : ApiResponse) :
  JS.trim key ≠ "" →
  in_flight s !! n = Some (key, k) →
  validateFeatureFlagKey key = Await key k →
  step s (ResponseArrives n response)
  = {| validationError := None;
       featureFlagValidation := validation_of key response;
       in_flight := delete n (in_flight s);
       debounce_timer := debounce_timer s |}.
Proof.
  intros Hkey%truthy_true Hn. simpl. rewrite Hn.
  unfold validateFeatureFlagKey. rewrite Hkey. simpl.
  intros [= <-]. destruct response as [|results]; [reflexivity|]. simpl.
  destruct (find_flag results key); reflexivity.
Qed.

(** C3, as stated, fails: "a" is validated, then "ab"; the response for
    "ab", which is free, arrives first and the loader's value says
    available; the response for the superseded "a", which is taken, arrives
    last, is handled like any other, and the value ends as not available. *)
Lemma stale_response_overwrites :
  featureFlagValidation
    (run_events initial_session
       [ ValidateFeatureFlagKey "a"; ValidateFeatureFlagKey "ab";
         ResponseArrives 1 free_response ])
  = Some {| available := true |} ∧
  featureFlagValidation
    (run_events initial_session
       [ ValidateFeatureFlagKey "a"; ValidateFeatureFlagKey "ab";
         ResponseArrives 1 free_response; ResponseArrives 0 (taken_response "a") ])
  = Some {| available := false |}.
Proof. by vm_compute. Qed.

(** C3, amended: with two validations in flight, every response is handled
    when it arrives, and the loader's value after both is the value for the
    key whose response arrived last: not available when that response holds
    the key, available when it holds none, null when the lookup failed.
    That key is the more recent one when the responses arrive in the order
    of the requests, the superseded one when they arrive in the other
    order. *)
Theorem last_response_wins (s : Session) (k1 k2 : string) (r1 r2 : ApiResponse) :
  in_flight s = [] → JS.trim k1 ≠ "" → JS.trim k2 ≠ "" →
  featureFlagValidation
    (run_events s [ ValidateFeatureFlagKey k1; ValidateFeatureFlagKey k2;
                    ResponseArrives 0 r1; ResponseArrives 0 r2 ])
  = validation_of k2 r2 ∧
  featureFlagValidation
    (run_events s [ ValidateFeatureFlagKey k1; ValidateFeatureFlagKey k2;
                    ResponseArrives 1 r2; ResponseArrives 0 r1 ])
  = validation_of k1 r1.
Proof.
  intros Hs Hk1 Hk2. destruct s as [error value flights timer]. simpl in Hs. subst flights.
  apply truthy_true in Hk1, Hk2.
  unfold run_events. cbn [fold_left step].
  unfold validateFeatureFlagKey, validation_of. rewrite Hk1, Hk2.
  destruct r1 as [|results1], r2 as [|results2]; cbv -[find_flag];
    try (destruct (find_flag results1 k1) eqn:E1; cbv -[find_flag]);
    try (destruct (find_flag results2 k2) eqn:E2; cbv -[find_flag]);
    rewrite ?E1, ?E2; split; reflexivity.
Qed.

Lemma last_response_wins_witness :
  featureFlagValidation
    (run_events initial_session
       [ ValidateFeatureFlagKey "a"; ValidateFeatureFlagKey "ab";
         ResponseArrives 0 (taken_response "a"); ResponseArrives 0 free_response ])
  = Some {| available := true |} ∧
  featureFlagValidation
    (run_events initial_session
       [ ValidateFeatureFlagKey "a"; ValidateFeatureFlagKey "ab";
         ResponseArrives 1 free_response; ResponseArrives 0 (taken_response "a") ])
  = Some {| available := false |}.
Proof.
  destruct (last_response_wins initial_session "a" "ab" (taken_response "a") free_response)
    as [H1 H2]; [reflexivity | discriminate | discriminate |].
  split; [rewrite H1 | rewrite H2]; reflexivity.
Defined.

Lemma advance_ignores_timer (key : string) (t : Async (option Validation)) (s s' : Session) :
  validationError s = validationError s' →
  featureFlagValidation s = featureFlagValidation s' →
  in_flight s = in_flight s' →
  validationError (advance key t s) = validationError (advance key t s') ∧
  featureFlagValidation (advance key t s) = featureFlagValidation (advance key t s') ∧
  in_flight (advance key t s) = in_flight (advance key t s').
Proof.
  revert s s'. induction t as [r | a t IH | search k _]; intros s s' He Hv Hf; simpl.
  - done.
  - apply IH; simpl; [reflexivity | by rewrite Hv | done].
  - by rewrite Hf.
Qed.

(** Keys typed within the debounce interval lead to one validation, that of
    the last key. *)
Lemma debounce_collapses (s : Session) (k1 k2 : string) :
  JS.trim k2 ≠ "" →
  let s' := run_events s [ UpdateFeatureFlagKey k1; UpdateFeatureFlagKey k2;
                           DebounceElapsed ] in
  validationError s' = validationError (run_events s [ ValidateFeatureFlagKey (JS.trim k2) ]) ∧
  in_flight s' = in_flight (run_events s [ ValidateFeatureFlagKey (JS.trim k2) ]).
Proof.
  intros Hk2%truthy_true. unfold run_events. simpl.
  unfold updateFeatureFlagKey. rewrite Hk2. simpl.
  split; apply advance_ignores_timer; reflexivity.
Qed.

(** * Further properties *)

(** ** The shape of a generated key *)

Lemma lower_key_is_slug (c : ascii) :
  implb (key_char (JS.toLowerCase_unit c)) (slug_char (JS.toLowerCase_unit c)) = true.
Proof. destruct c as [[] [] [] [] [] [] [] []]; reflexivity. Qed.

Lemma slug_char_key (c : ascii) : slug_char c = true → key_char c = true.
Proof. destruct c as [[] [] [] [] [] [] [] []]; vm_compute; congruence. Qed.

Lemma slug_char_lower (c : ascii) : slug_char c = true → JS.toLowerCase_unit c = c.
Proof. destruct c as [[] [] [] [] [] [] [] []]; vm_compute; congruence. Qed.

Lemma slug_char_not_space (c : ascii) : slug_char c = true → JS.is_white_space c = false.
Proof. destruct c as [[] [] [] [] [] [] [] []]; vm_compute; congruence. Qed.

Lemma is_dash_slug (c : ascii) : is_dash c = true → slug_char c = true.
Proof. destruct c as [[] [] [] [] [] [] [] []]; vm_compute; congruence. Qed.

Lemma all_in_impl (P Q : ascii → bool) (s : string) :
  (∀ c, P c = true → Q c = true) → all_in P s = true → all_in Q s = true.
Proof.
  intros HPQ. induction s as [|c r IH]; [done|].
  simpl. intros [Hc Hr]%andb_true_iff. rewrite (HPQ c Hc). by apply IH.
Qed.

Lemma all_in_drop_run (P cls : ascii → bool) (s : string) :
  all_in P s = true → all_in P (drop_run cls s) = true.
Proof.
  induction s as [|c r IH]; [done|].
  simpl. intros H. destruct (cls c); [|exact H].
  apply andb_true_iff in H as [_ Hr]. by apply IH.
Qed.

Lemma all_in_toLowerCase (s : string) :
  all_in (fun c => implb (key_char c) (slug_char c)) (JS.toLowerCase s) = true.
Proof.
  induction s as [|c r IH]; [done|].
  simpl. by rewrite lower_key_is_slug, IH.
Qed.

Lemma all_in_replace_runs (s : string) :
  all_in (fun c => implb (key_char c) (slug_char c)) s = true →
  all_in slug_char (Described.replace_runs s) = true.
Proof.
  remember (String.length s) as n eqn:Hn.
  assert (Hle : String.length s ≤ n) by lia. clear Hn.
  revert s Hle. induction n as [|n IH]; intros s Hle Hs.
  - destruct s; [reflexivity | simpl in Hle; lia].
  - destruct s as [|c r]; [reflexivity|].
    simpl in Hle, Hs. apply andb_true_iff in Hs as [Hc Hr].
    destruct (key_char c) eqn:Hkey.
    + rewrite replace_runs_key by done. simpl in *. rewrite Hc. apply IH; [lia | done].
    + rewrite replace_runs_not_key by done. rewrite app_cons. simpl.
      apply IH.
      * pose proof (drop_run_shorter not_key_char r). lia.
      * by apply all_in_drop_run.
Qed.

Lemma all_in_strip_leading (P : ascii → bool) (s : string) :
  all_in P s = true → all_in P (Described.strip_leading_dashes s) = true.
Proof.
  induction s as [|c r IH]; [done|].
  simpl. intros H. destruct (is_dash c); [|exact H].
  apply andb_true_iff in H as [_ Hr]. by apply IH.
Qed.

Lemma all_in_strip_trailing (P : ascii → bool) (s : string) :
  all_in P s = true → all_in P (Described.strip_trailing_dashes s) = true.
Proof.
  intros H. unfold Described.strip_trailing_dashes.
  rewrite all_in_reverse. apply all_in_strip_leading. by rewrite all_in_reverse.
Qed.

Lemma normalize_slug_chars (name : string) :
  all_in slug_char (Described.normalize name) = true.
Proof.
  unfold Described.normalize.
  apply all_in_strip_leading, all_in_strip_trailing, all_in_replace_runs,
    all_in_toLowerCase.
Qed.

(** X1: whatever the name, its base key is made of the characters
    [a-z0-9-_] only. *)
Theorem baseKey_slug_chars (name : string) : all_in slug_char (baseKey name) = true.
Proof.
  rewrite baseKey_normalize. unfold Described.normalize.
  apply all_in_strip_leading, all_in_strip_trailing.
  apply all_in_replace_runs, all_in_toLowerCase.
Qed.

Lemma strip_leading_starts (s : string) :
  starts_with_dash (Described.strip_leading_dashes s) = false.
Proof.
  induction s as [|c r IH]; [done|].
  simpl. destruct (is_dash c) eqn:Hc; [exact IH | simpl; exact Hc].
Qed.

Lemma strip_trailing_empty (s : string) :
  Described.strip_trailing_dashes s = "" → all_in is_dash s = true.
Proof.
  induction s as [|c r IH]; [done|].
  rewrite strip_trailing_cons. destruct (all_in is_dash (String c r)); [done | discriminate].
Qed.

Lemma strip_trailing_ends (s : string) :
  ends_with_dash (Described.strip_trailing_dashes s) = false.
Proof.
  induction s as [|c r IH]; [done|].
  rewrite strip_trailing_cons.
  destruct (all_in is_dash (String c r)) eqn:Hall; [done|].
  simpl. destruct (Described.strip_trailing_dashes r) eqn:Hr; [|exact IH].
  apply strip_trailing_empty in Hr. simpl in Hall. rewrite Hr, andb_true_r in Hall.
  exact Hall.
Qed.

Lemma strip_leading_ends (s : string) :
  ends_with_dash s = false → ends_with_dash (Described.strip_leading_dashes s) = false.
Proof.
  induction s as [|c r IH]; [done|].
  intros H. simpl. destruct (is_dash c) eqn:Hc; [|exact H].
  apply IH. destruct r; [done | exact H].
Qed.

Lemma normalize_no_outer_dash (name : string) :
  starts_with_dash (Described.normalize name) = false ∧
  ends_with_dash (Described.normalize name) = false.
Proof.
  unfold Described.normalize. split.
  - apply strip_leading_starts.
  - apply strip_leading_ends, strip_trailing_ends.
Qed.

(** X2: a base key neither starts nor ends with a dash. *)
Theorem baseKey_no_outer_dash (name : string) :
  starts_with_dash (baseKey name) = false ∧ ends_with_dash (baseKey name) = false.
Proof.
  rewrite baseKey_normalize. unfold Described.normalize. split.
  - apply strip_leading_starts.
  - apply strip_leading_ends, strip_trailing_ends.
Qed.

Lemma toLowerCase_slug (s : string) :
  all_in slug_char s = true → JS.toLowerCase s = s.
Proof.
  induction s as [|c r IH]; [done|].
  simpl. intros [Hc Hr]%andb_true_iff.
  by rewrite (slug_char_lower c Hc), IH.
Qed.

Lemma replace_runs_slug (s : string) :
  all_in slug_char s = true → Described.replace_runs s = s.
Proof.
  induction s as [|c r IH]; [done|].
  simpl. intros [Hc Hr]%andb_true_iff.
  rewrite replace_runs_key by (by apply slug_char_key). by rewrite IH.
Qed.

Lemma ends_with_dash_all (s : string) :
  all_in is_dash s = true → s ≠ "" → ends_with_dash s = true.
Proof.
  induction s as [|c r IH]; [done|].
  simpl. intros [Hc Hr]%andb_true_iff _.
  destruct r as [|c' r']; [exact Hc|]. by apply IH.
Qed.

Lemma strip_trailing_fixed (s : string) :
  ends_with_dash s = false → Described.strip_trailing_dashes s = s.
Proof.
  induction s as [|c r IH]; [done|].
  intros H. rewrite strip_trailing_cons.
  destruct (all_in is_dash (String c r)) eqn:Hall.
  - apply ends_with_dash_all in Hall; [congruence | discriminate].
  - f_equal. destruct r as [|c' r']; [done|]. by apply IH.
Qed.

Lemma strip_leading_fixed (s : string) :
  starts_with_dash s = false → Described.strip_leading_dashes s = s.
Proof. destruct s as [|c r]; [done|]. simpl. by intros ->. Qed.

(** X3: normalising is idempotent: the base key of a base key is that base
    key. *)
Theorem baseKey_idempotent (name : string) : baseKey (baseKey name) = baseKey name.
Proof.
  rewrite !baseKey_normalize.
  destruct (normalize_no_outer_dash name) as [Hstart Hend].
  pose proof (normalize_slug_chars name) as Hslug.
  unfold Described.normalize at 1.
  rewrite (toLowerCase_slug _ Hslug), (replace_runs_slug _ Hslug).
  rewrite (strip_trailing_fixed _ Hend). by apply strip_leading_fixed.
Qed.

Lemma pretty_N_char_slug (d : N) : slug_char (pretty_N_char d) = true.
Proof. unfold pretty_N_char. repeat case_match; reflexivity. Qed.

Lemma pretty_N_go_slug (x : N) (s : string) :
  all_in slug_char s = true → all_in slug_char (pretty_N_go x s) = true.
Proof.
  revert s. induction (N.lt_wf_0 x) as [x _ IH]. intros s Hs.
  destruct (decide (x = 0)%N) as [->|Hx]; [by rewrite pretty_N_go_0|].
  rewrite pretty_N_go_step by lia. apply IH.
  - apply N.div_lt; lia.
  - simpl. by rewrite pretty_N_char_slug, Hs.
Qed.

Lemma candidate_slug (base : string) (k : N) :
  all_in slug_char base = true → all_in slug_char (candidate base k) = true.
Proof.
  intros Hbase. unfold candidate. rewrite !all_in_app, Hbase. simpl.
  unfold pretty, pretty_N. destruct (decide (k = 0)%N); [reflexivity|].
  by apply pretty_N_go_slug.
Qed.

Lemma trimEnd_slug (s : string) : all_in slug_char s = true → JS.trimEnd s = s.
Proof.
  induction s as [|c r IH]; [done|].
  simpl. intros [Hc Hr]%andb_true_iff. rewrite (IH Hr).
  destruct r; [|done]. by rewrite (slug_char_not_space c Hc).
Qed.

Lemma trim_slug (s : string) : all_in slug_char s = true → JS.trim s = s.
Proof.
  intros Hs. unfold JS.trim.
  assert (Hstart : JS.trimStart s = s).
  { destruct s as [|c r]; [done|]. simpl in *.
    apply andb_true_iff in Hs as [Hc _]. by rewrite (slug_char_not_space c Hc). }
  rewrite Hstart. by apply trimEnd_slug.
Qed.

Lemma generated_key_slug (name : string) (reserved : gset string) (key : string) :
  generateFeatureFlagKey name reserved = Some key → all_in slug_char key = true.
Proof.
  unfold generateFeatureFlagKey, generateFeatureFlagKey_fuel. intros Hkey.
  apply while_has_first_free in Hkey.
  destruct Hkey as [[_ ->] | [_ (k & _ & -> & _)]].
  - rewrite baseKey_normalize. apply normalize_slug_chars.
  - apply candidate_slug. rewrite baseKey_normalize. apply normalize_slug_chars.
Qed.

(** X4: the key that generateFeatureFlagKey returns is made of the
    characters [a-z0-9-_] only, so trimming it changes nothing. *)
Theorem generateFeatureFlagKey_slug_chars (name : string) (reserved : gset string) :
  ∃ key, generateFeatureFlagKey name reserved = Some key ∧
         all_in slug_char key = true ∧ JS.trim key = key.
Proof.
  destruct (generateFeatureFlagKey_returns name reserved) as [key Hkey].
  exists key. split; [done|].
  pose proof (generated_key_slug _ _ _ Hkey) as Hslug.
  split; [done | by apply trim_slug].
Qed.

(** The base and the candidates before [base-k] are [k] different keys. *)
Lemma passed_candidates_bound (base : string) (reserved : gset string) (k : N) :
  base ∈ reserved → (1 ≤ k)%N →
  (∀ j : N, (1 ≤ j < k)%N → candidate base j ∈ reserved) →
  (k ≤ N.of_nat (size reserved))%N.
Proof.
  intros Hbase Hk Hbelow.
  set (passed := base :: ((fun j => candidate base (N.of_nat j)) <$> seq 1 (N.to_nat k - 1))).
  assert (Hdup : NoDup passed).
  { apply NoDup_cons. split.
    - intros (j & Hj & _)%list_elem_of_fmap. symmetry in Hj.
      by apply candidate_ne_base in Hj.
    - apply NoDup_fmap_2; [|apply NoDup_seq].
      intros i j Hij. apply candidate_inj in Hij. lia. }
  assert (Hsub : (list_to_set passed : gset string) ⊆ reserved).
  { intros x Hx. apply elem_of_list_to_set in Hx.
    apply elem_of_cons in Hx as [->|Hx]; [done|].
    apply list_elem_of_fmap in Hx as (j & -> & Hj).
    apply elem_of_seq in Hj. apply Hbelow. lia. }
  apply subseteq_size in Hsub. rewrite size_list_to_set in Hsub by done.
  subst passed. simpl in Hsub. rewrite length_fmap, length_seq in Hsub. lia.
Qed.

(** X5: the suffix that generateFeatureFlagKey appends is at most the
    number of reserved keys: the key is the base or base-k with
    1 <= k <= size of the reserved set. *)
Theorem generateFeatureFlagKey_suffix_bound (name : string) (reserved : gset string) :
  ∃ key, generateFeatureFlagKey name reserved = Some key ∧
         (key = baseKey name ∨
          ∃ k : N, (1 ≤ k ≤ N.of_nat (size reserved))%N ∧
                   key = candidate (baseKey name) k).
Proof.
  destruct (generateFeatureFlagKey_returns name reserved) as [key Hkey].
  exists key. split; [done|].
  unfold generateFeatureFlagKey, generateFeatureFlagKey_fuel in Hkey.
  apply while_has_first_free in Hkey.
  destruct Hkey as [[_ ->] | [Hbase (k & Hk & -> & _ & Hbelow)]]; [by left|].
  right. exists k. split; [|done]. split; [done|].
  by apply passed_candidates_bound with (base := baseKey name).
Qed.

(** ** Generating the key from the name *)

Lemma elem_of_unavailableKeys (existing : list FeatureFlagType) (key : string) :
  key ∈ unavailableKeys_of existing ↔ ∃ flag, flag ∈ existing ∧ flag_key flag = key.
Proof.
  unfold unavailableKeys_of. rewrite elem_of_list_to_set, list_elem_of_fmap.
  split; intros (flag & H1 & H2); exists flag; by split.
Qed.

Lemma generated_key_free (name : string) (reserved : gset string) (key : string) :
  generateFeatureFlagKey name reserved = Some key → key ∉ reserved.
Proof.
  unfold generateFeatureFlagKey, generateFeatureFlagKey_fuel. intros Hkey.
  by apply while_has_sound in Hkey as [Hfree _].
Qed.

(** What [generateFeatureFlagKeyFromName] does on a name that is not blank. *)
Lemma generateFeatureFlagKeyFromName_run (existing : list FeatureFlagType) (v : Values) :
  JS.trim (form_name (experimentForm v)) ≠ "" →
  ∃ key,
    generateFeatureFlagKey (JS.trim (form_name (experimentForm v)))
      (unavailableKeys_of existing) = Some key ∧
    generateFeatureFlagKeyFromName existing v
    = ([FollowValidateFeatureFlagKey key], with_feature_flag_key key v, []).
Proof.
  intros Hname%truthy_true.
  destruct (generateFeatureFlagKey_returns (JS.trim (form_name (experimentForm v)))
              (unavailableKeys_of existing)) as [key Hkey].
  exists key. split; [done|].
  unfold generateFeatureFlagKeyFromName, mbind, listener_bind, values.
  rewrite Hname, Hkey. reflexivity.
Qed.

(** X6: generateFeatureFlagKeyFromName does nothing on a blank name; on any
    other name it writes into the key field the key generated from the
    trimmed name, which is the key of none of the loaded flags, leaves the
    rest of the values alone, and asks for the validation of that key. *)
Theorem generateFeatureFlagKeyFromName_fresh (existing : list FeatureFlagType) (v : Values) :
  (JS.trim (form_name (experimentForm v)) = "" →
     generateFeatureFlagKeyFromName existing v = ([], v, [])) ∧
  (JS.trim (form_name (experimentForm v)) ≠ "" →
     ∃ key,
       generateFeatureFlagKeyFromName existing v
       = ([FollowValidateFeatureFlagKey key], with_feature_flag_key key v, []) ∧
       (∀ flag, flag ∈ existing → flag_key flag ≠ key)).
Proof.
  split.
  - intros Hname. unfold generateFeatureFlagKeyFromName, mbind, listener_bind, values.
    rewrite Hname. reflexivity.
  - intros Hname.
    destruct (generateFeatureFlagKeyFromName_run existing v Hname) as (key & Hkey & Hrun).
    exists key. split; [done|].
    intros flag Hflag Heq. apply generated_key_free in Hkey.
    apply Hkey, elem_of_unavailableKeys. by exists flag.
Qed.

Lemma generateFeatureFlagKeyFromName_fresh_witness :
  generateFeatureFlagKeyFromName two_flags initial_values = ([], initial_values, []) ∧
  returned_by (generateFeatureFlagKeyFromName two_flags named_values)
  = [FollowValidateFeatureFlagKey "pricing-page-2"].
Proof.
  split.
  - destruct (generateFeatureFlagKeyFromName_fresh two_flags initial_values) as [H _].
    apply H. reflexivity.
  - destruct (generateFeatureFlagKeyFromName_fresh two_flags named_values) as [_ H].
    destruct H as (key & Hrun & _); [by vm_compute|].
    rewrite Hrun. unfold returned_by. simpl.
    assert (Hkey : generateFeatureFlagKeyFromName two_flags named_values
                   = ([FollowValidateFeatureFlagKey "pricing-page-2"],
                      with_feature_flag_key "pricing-page-2" named_values, []))
      by (by vm_compute).
    rewrite Hkey in Hrun. by injection Hrun as <-.
Defined.

(** X7: against a registry that answers and lists loaded flags only, the
    validation of the key that generateFeatureFlagKeyFromName asks for makes
    one lookup and ends with the value available, unless the key is empty:
    then no lookup is made and the value ends as null.  The error ends as
    null in both cases. *)
Theorem generated_key_validates (existing : list FeatureFlagType) (v : Values)
    (api : string → ApiResponse) (state : option string) (value : option Validation) :
  JS.trim (form_name (experimentForm v)) ≠ "" →
  lists_only api existing →
  ∃ key,
    returned_by (generateFeatureFlagKeyFromName existing v)
    = [FollowValidateFeatureFlagKey key] ∧
    let r := run_with api key (validateFeatureFlagKey key) in
    error_after state r = None ∧
    (key = "" → remote_calls r = [] ∧ returned r = None ∧ value_after value r = None) ∧
    (key ≠ "" → remote_calls r = [key] ∧
                returned r = Some {| available := true |} ∧
                value_after value r = Some {| available := true |}).
Proof.
  intros Hname Hapi.
  destruct (generateFeatureFlagKeyFromName_run existing v Hname) as (key & Hkey & Hrun).
  exists key. rewrite Hrun. split; [reflexivity|].
  pose proof (generated_key_slug _ _ _ Hkey) as Hslug.
  pose proof (generated_key_free _ _ _ Hkey) as Hfree.
  unfold validateFeatureFlagKey. rewrite (trim_slug _ Hslug).
  destruct (JS.truthy key) eqn:Htruthy; simpl.
  - apply truthy_true in Htruthy as Hne.
    destruct (Hapi key) as [Hok Hlisted].
    destruct (api key) as [|results] eqn:Hresp; [done|].
    destruct (find_flag results key) as [flag|] eqn:Hfind; [|done].
    exfalso. apply Hfree, elem_of_unavailableKeys.
    assert (Hhas : registry_has (ApiResults results) key)
      by (apply find_flag_registry; by eexists).
    destruct Hhas as (results' & flag' & [= ->] & Hin & Hflag).
    exists flag'. split; [|done]. by apply (Hlisted results').
  - split; [reflexivity|]. split; [done|].
    intros Hne%truthy_true. congruence.
Qed.

Lemma generated_key_validates_witness :
  ∃ key,
    returned_by (generateFeatureFlagKeyFromName two_flags named_values)
    = [FollowValidateFeatureFlagKey key] ∧
    value_after None
      (run_with (fun _ => ApiResults (Some two_flags)) key (validateFeatureFlagKey key))
    = Some {| available := true |}.
Proof.
  destruct (generated_key_validates two_flags named_values
              (fun _ => ApiResults (Some two_flags))
              (Some "Feature flag key is required") None) as (key & Hret & _ & _ & H).
  - by vm_compute.
  - intros search. split; [discriminate|]. intros results flag [= <-] Hin. exact Hin.
  - exists key. split; [exact Hret|].
    apply H. intros ->.
    assert (Hkey : returned_by (generateFeatureFlagKeyFromName two_flags named_values)
                   = [FollowValidateFeatureFlagKey "pricing-page-2"]) by (by vm_compute).
    rewrite Hkey in Hret. discriminate Hret.
Defined.

(** ** Name, mode and key *)

(** X8: setExperimentFormValue on the name leaves the key alone when the
    mode is that of an existing flag or the new name is blank; in the mode of
    a new flag a name that is not blank replaces the key, whatever it was, by
    the key generated from the trimmed name, and asks for its validation. *)
Theorem setExperimentFormName_key
    (existing : list FeatureFlagType) (value : string) (v : Values) :
  (featureFlagMode v = ModeExisting ∨ JS.trim value = "" →
     setExperimentFormName existing value v = ([], with_form_name value v, [])) ∧
  (featureFlagMode v = ModeNew → JS.trim value ≠ "" →
     ∃ key,
       generateFeatureFlagKey (JS.trim value) (unavailableKeys_of existing) = Some key ∧
       setExperimentFormName existing value v
       = ([FollowValidateFeatureFlagKey key],
          with_feature_flag_key key (with_form_name value v), [])).
Proof.
  split.
  - intros H. unfold setExperimentFormName, mbind, listener_bind, modify, values.
    cbn [featureFlagMode with_form_name].
    destruct H as [-> | ->]; [|reflexivity].
    rewrite andb_false_r. reflexivity.
  - intros Hmode Hvalue.
    destruct (generateFeatureFlagKeyFromName_run existing (with_form_name value v))
      as (key & Hkey & Hrun); [exact Hvalue|].
    exists key. split; [exact Hkey|].
    unfold setExperimentFormName, mbind, listener_bind, modify, values.
    cbn [featureFlagMode with_form_name]. rewrite Hmode.
    apply truthy_true in Hvalue. rewrite Hvalue. simpl.
    fold (with_form_name value v). rewrite Hrun. reflexivity.
Qed.

Lemma setExperimentFormName_key_witness :
  feature_flag_key
    (experimentForm
       (values_after
          (setExperimentFormName two_flags "Pricing page"
             (with_feature_flag_key "my-own-key" initial_values))))
  = "pricing-page-2" ∧
  setExperimentFormName two_flags "  " (with_feature_flag_key "my-own-key" initial_values)
  = ([], with_form_name "  " (with_feature_flag_key "my-own-key" initial_values), []).
Proof.
  split.
  - destruct (setExperimentFormName_key two_flags "Pricing page"
                (with_feature_flag_key "my-own-key" initial_values)) as [_ H].
    destruct H as (key & Hkey & Hrun); [reflexivity | by vm_compute |].
    rewrite Hrun.
    assert (Hgen : generateFeatureFlagKey (JS.trim "Pricing page")
                     (unavailableKeys_of two_flags) = Some "pricing-page-2")
      by (by vm_compute).
    rewrite Hgen in Hkey. injection Hkey as <-. reflexivity.
  - destruct (setExperimentFormName_key two_flags "  "
                (with_feature_flag_key "my-own-key" initial_values)) as [H _].
    apply H. right. reflexivity.
Defined.

(** X9: switching the mode to an existing flag and back to a new flag ends
    in the mode of a new flag with no flag selected and name, description,
    parameters and validation error as before; the key is then the one
    generated from the trimmed name, or empty when the name is blank:
    the key that the field held before is lost either way. *)
Theorem setFeatureFlagMode_round_trip (existing : list FeatureFlagType) (v : Values) :
  let there := values_after (setFeatureFlagMode existing ModeExisting v) in
  let back := setFeatureFlagMode existing ModeNew there in
  let form := experimentForm (values_after back) in
  featureFlagMode (values_after back) = ModeNew ∧
  selectedFeatureFlag (values_after back) = None ∧
  featureFlagKeyValidationError (values_after back) = featureFlagKeyValidationError v ∧
  form_name form = form_name (experimentForm v) ∧
  description form = description (experimentForm v) ∧
  parameters form = parameters (experimentForm v) ∧
  (JS.trim (form_name (experimentForm v)) = "" →
     feature_flag_key form = "" ∧ returned_by back = []) ∧
  (JS.trim (form_name (experimentForm v)) ≠ "" →
     generateFeatureFlagKey (JS.trim (form_name (experimentForm v)))
       (unavailableKeys_of existing) = Some (feature_flag_key form) ∧
     returned_by back = [FollowValidateFeatureFlagKey (feature_flag_key form)]).
Proof.
  intros there back form.
  destruct (JS.truthy (JS.trim (form_name (experimentForm v)))) eqn:Hname.
  - apply truthy_true in Hname as Hne.
    set (cleared := with_selected None (with_mode ModeNew there)).
    destruct (generateFeatureFlagKeyFromName_run existing cleared)
      as (key & Hkey & Hrun); [exact Hne|].
    assert (Hback : back = ([FollowValidateFeatureFlagKey key],
                            with_feature_flag_key key cleared, [])).
    { subst back. unfold setFeatureFlagMode, mbind, listener_bind, modify, values.
      fold cleared. replace (form_name (experimentForm cleared))
        with (form_name (experimentForm v)) by reflexivity.
      rewrite Hname, Hrun. reflexivity. }
    subst form. rewrite Hback. repeat (split; [reflexivity|]). split.
    + intros Hblank. by rewrite Hblank in Hne.
    + intros _. split; [exact Hkey | reflexivity].
  - assert (Hback : back = ([], with_selected None (with_mode ModeNew there), [])).
    { subst back. unfold setFeatureFlagMode, mbind, listener_bind, modify, values.
      replace (form_name (experimentForm (with_selected None (with_mode ModeNew there))))
        with (form_name (experimentForm v)) by reflexivity.
      rewrite Hname. reflexivity. }
    subst form. rewrite Hback. repeat (split; [reflexivity|]). split.
    + intros _. split; reflexivity.
    + intros Hne%truthy_true. congruence.
Qed.

Lemma setFeatureFlagMode_round_trip_witness :
  feature_flag_key
    (experimentForm
       (values_after
          (setFeatureFlagMode two_flags ModeNew
             (values_after
                (setFeatureFlagMode two_flags ModeExisting
                   (with_feature_flag_key "my-own-key" initial_values))))))
  = "" ∧
  generateFeatureFlagKey (JS.trim " Pricing Page ") (unavailableKeys_of two_flags)
  = Some
      (feature_flag_key
         (experimentForm
            (values_after
               (setFeatureFlagMode two_flags ModeNew
                  (values_after
                     (setFeatureFlagMode two_flags ModeExisting
                        (with_feature_flag_key "my-own-key" named_values))))))).
Proof.
  split.
  - destruct (setFeatureFlagMode_round_trip two_flags
                (with_feature_flag_key "my-own-key" initial_values))
      as (_ & _ & _ & _ & _ & _ & H & _).
    apply H. reflexivity.
  - destruct (setFeatureFlagMode_round_trip two_flags
                (with_feature_flag_key "my-own-key" named_values))
      as (_ & _ & _ & _ & _ & _ & _ & H).
    apply H. by vm_compute.
Defined.

(** ** What saving reads and writes *)

(** X10: saveAsDraft changes nothing in the values but the key of the form,
    and that only when it submits in the mode of an existing flag: the key
    is then the key of the selected flag.  Mode, selection, validation error,
    name, description and parameters stay as they were. *)
Theorem saveAsDraft_writes_key (shown : FormErrors → FormErrors) (v : Values) :
  let r := saveAsDraft shown v in
  let v' := final_values r in
  featureFlagMode v' = featureFlagMode v ∧
  selectedFeatureFlag v' = selectedFeatureFlag v ∧
  featureFlagKeyValidationError v' = featureFlagKeyValidationError v ∧
  form_name (experimentForm v') = form_name (experimentForm v) ∧
  description (experimentForm v') = description (experimentForm v) ∧
  parameters (experimentForm v') = parameters (experimentForm v) ∧
  feature_flag_key (experimentForm v') =
    match featureFlagMode v, selectedFeatureFlag v with
    | ModeExisting, Some flag =>
        if submitted r then flag_key flag else feature_flag_key (experimentForm v)
    | _, _ => feature_flag_key (experimentForm v)
    end.
Proof.
  destruct v as [mode selected error form].
  unfold submitted, final_values, effects, saveAsDraft.
  unfold mbind, listener_bind, values, emit, mret, listener_ret,
    setExperimentFormValue, modify.
  cbv beta iota zeta delta [featureFlagMode selectedFeatureFlag experimentForm
                            featureFlagKeyValidationError].
  destruct mode, selected;
    destruct (hasFormErrors (experimentFormErrors shown form)); repeat split.
Qed.

(** X11: saveAsDraft does not read the validation error: a key that the
    validator reported as taken, or as failing to validate, is submitted like
    any other. *)
Theorem saveAsDraft_ignores_validation (shown : FormErrors → FormErrors) (v : Values)
    (error : option string) :
  submitted (saveAsDraft shown (with_validation_error error v))
  = submitted (saveAsDraft shown v) ∧
  effects (saveAsDraft shown (with_validation_error error v))
  = effects (saveAsDraft shown v).
Proof.
  split; [rewrite !saveAsDraft_submitted; reflexivity|].
  destruct v as [mode selected error' form].
  unfold effects, saveAsDraft, with_validation_error.
  unfold mbind, listener_bind, values, emit, mret, listener_ret,
    setExperimentFormValue, modify.
  cbv beta iota zeta delta [featureFlagMode selectedFeatureFlag experimentForm
                            featureFlagKeyValidationError].
  destruct mode, selected;
    destruct (hasFormErrors (experimentFormErrors shown form)); reflexivity.
Qed.

(** ** More on the variant allocator *)

Lemma with_rollout_twice (variant : MultivariateFlagVariant) (p q : Z) :
  with_rollout (with_rollout variant p) q = with_rollout variant q.
Proof. reflexivity. Qed.

(** What [distributeVariantsEqually] does on a list that is not empty. *)
Lemma distributeVariantsEqually_run (v : Values) :
  variants_or_empty v ≠ [] →
  distributeVariantsEqually v
  = (tt, with_parameters v
           {| feature_flag_variants := Some (distributed (variants_or_empty v)) |}, []).
Proof.
  intros Hne. unfold distributeVariantsEqually.
  unfold mbind, listener_bind, values.
  destruct (Nat.eqb_spec (length (variants_or_empty v)) 0) as [H0|_]; [|reflexivity].
  destruct (variants_or_empty v); [done | discriminate H0].
Qed.

Lemma distributeVariantsEqually_empty (v : Values) :
  variants_or_empty v = [] → distributeVariantsEqually v = (tt, v, []).
Proof.
  intros Hnil. unfold distributeVariantsEqually.
  unfold mbind, listener_bind, values. rewrite Hnil. reflexivity.
Qed.

Lemma variants_with_parameters (v : Values) (vs : list MultivariateFlagVariant) :
  variants_or_empty (with_parameters v {| feature_flag_variants := Some vs |}) = vs.
Proof. reflexivity. Qed.

Lemma with_parameters_twice (v : Values) (p q : Parameters) :
  with_parameters (with_parameters v p) q = with_parameters v q.
Proof. reflexivity. Qed.

Lemma length_distributed (variants : list MultivariateFlagVariant) :
  length (distributed variants) = length variants.
Proof. unfold distributed. apply length_imap. Qed.

Lemma distributed_twice (variants : list MultivariateFlagVariant) :
  distributed (distributed variants) = distributed variants.
Proof.
  unfold distributed at 1. rewrite length_distributed. unfold distributed.
  apply list_eq. intros i. rewrite !list_lookup_imap.
  destruct (variants !! i); reflexivity.
Qed.

(** X12: distributing twice is distributing once. *)
Theorem distributeVariantsEqually_idempotent (v : Values) :
  distributeVariantsEqually (final_values (distributeVariantsEqually v))
  = distributeVariantsEqually v.
Proof.
  destruct (variants_or_empty v) as [|x l] eqn:Hvs.
  - rewrite (distributeVariantsEqually_empty v Hvs). simpl.
    by apply distributeVariantsEqually_empty.
  - rewrite (distributeVariantsEqually_run v) by (by rewrite Hvs).
    unfold final_values. simpl fst. simpl snd.
    rewrite distributeVariantsEqually_run.
    + by rewrite variants_with_parameters, with_parameters_twice, distributed_twice.
    + rewrite variants_with_parameters. intros Hnil.
      apply (f_equal length) in Hnil. rewrite length_distributed, Hvs in Hnil.
      discriminate Hnil.
Qed.

Lemma distributed_shares_eq (variants : list MultivariateFlagVariant) :
  variants ≠ [] →
  rollout_percentage <$> distributed variants
  = replicate (length variants - 1) (Math_round_div 100 (Z.of_nat (length variants)))
    ++ [(100 - Math_round_div 100 (Z.of_nat (length variants))
               * (Z.of_nat (length variants) - 1))%Z].
Proof.
  intros Hne. unfold distributed. cbv zeta.
  rewrite (imap_shares variants _ _ Hne). do 2 f_equal. lia.
Qed.

Lemma round_base_bounds (n : Z) :
  (1 ≤ n)%Z → (0 ≤ Math_round_div 100 n ≤ 100)%Z.
Proof.
  intros Hn. unfold Math_round_div. split.
  - apply Z.div_pos; lia.
  - apply Z.lt_succ_r. apply Z.div_lt_upper_bound; lia.
Qed.

Lemma round_base_small (n : Z) :
  (1 ≤ n ≤ 17)%Z → (Math_round_div 100 n * (n - 1) ≤ 100)%Z.
Proof.
  intros Hn.
  assert (Hcases : (n = 1 ∨ n = 2 ∨ n = 3 ∨ n = 4 ∨ n = 5 ∨ n = 6 ∨ n = 7 ∨ n = 8 ∨ n = 9
                    ∨ n = 10 ∨ n = 11 ∨ n = 12 ∨ n = 13 ∨ n = 14 ∨ n = 15 ∨ n = 16
                    ∨ n = 17)%Z) by lia.
  repeat (destruct Hcases as [-> | Hcases]; [vm_compute; discriminate|]).
  subst n. vm_compute. discriminate.
Qed.

(** X13: after distributeVariantsEqually on N >= 1 variants no share exceeds
    100 and no share but the last is negative; up to 17 variants every share
    lies between 0 and 100; with 18 variants the last share is -2. *)
Theorem distributeVariantsEqually_range (v : Values) :
  let n := length (variants_or_empty v) in
  let shares :=
    rollout_percentage <$> variants_or_empty (final_values (distributeVariantsEqually v)) in
  (1 ≤ n →
     Forall (fun share => (share ≤ 100)%Z) shares ∧
     Forall (fun share => (0 ≤ share)%Z) (take (n - 1) shares)) ∧
  (1 ≤ n ≤ 17 → Forall (fun share => (0 ≤ share ≤ 100)%Z) shares) ∧
  (n = 18 → last shares = Some (-2)%Z).
Proof.
  intros n shares.
  assert (Hshares : 1 ≤ n →
    shares = replicate (n - 1) (Math_round_div 100 (Z.of_nat n))
             ++ [(100 - Math_round_div 100 (Z.of_nat n) * (Z.of_nat n - 1))%Z]).
  { intros Hn. subst shares n.
    assert (Hne : variants_or_empty v ≠ []) by (intros H; rewrite H in Hn; simpl in Hn; lia).
    rewrite (distributeVariantsEqually_run v Hne). unfold final_values. simpl fst. simpl snd.
    rewrite variants_with_parameters. by apply distributed_shares_eq. }
  split; [|split].
  - intros Hn. rewrite (Hshares Hn).
    pose proof (round_base_bounds (Z.of_nat n) ltac:(lia)) as Hbase. split.
    + apply Forall_app. split; [apply Forall_replicate; lia|].
      apply Forall_singleton. nia.
    + rewrite take_app_length' by (by rewrite length_replicate).
      apply Forall_replicate. lia.
  - intros Hn. rewrite (Hshares ltac:(lia)).
    pose proof (round_base_bounds (Z.of_nat n) ltac:(lia)) as Hbase.
    pose proof (round_base_small (Z.of_nat n) ltac:(lia)) as Hsmall.
    apply Forall_app. split; [apply Forall_replicate; lia|].
    apply Forall_singleton. nia.
  - intros Hn. rewrite (Hshares ltac:(lia)), Hn. reflexivity.
Qed.

Lemma distributeVariantsEqually_range_witness :
  Forall (fun share => (0 ≤ share ≤ 100)%Z) (distributed_shares 8) ∧
  last (distributed_shares 18) = Some (-2)%Z.
Proof.
  split.
  - destruct (distributeVariantsEqually_range (values_of_variants 8)) as (_ & H & _).
    apply H. vm_compute. lia.
  - destruct (distributeVariantsEqually_range (values_of_variants 18)) as (_ & _ & H).
    apply H. reflexivity.
Defined.

(** X14: with more than 200 variants distributeVariantsEqually gives 0 to
    every variant but the last, and 100 to the last. *)
Theorem distributeVariantsEqually_many (v : Values) :
  let n := length (variants_or_empty v) in
  200 < n →
  rollout_percentage <$> variants_or_empty (final_values (distributeVariantsEqually v))
  = replicate (n - 1) 0%Z ++ [100%Z].
Proof.
  intros n Hn.
  assert (Hne : variants_or_empty v ≠ []) by (intros H; subst n; rewrite H in Hn; simpl in Hn; lia).
  rewrite (distributeVariantsEqually_run v Hne). unfold final_values. simpl fst. simpl snd.
  rewrite variants_with_parameters, (distributed_shares_eq _ Hne). fold n.
  assert (Hbase : Math_round_div 100 (Z.of_nat n) = 0%Z).
  { unfold Math_round_div. apply Z.div_small. lia. }
  rewrite Hbase. reflexivity.
Qed.

Lemma distributeVariantsEqually_many_witness :
  distributed_shares 201 = replicate 200 0%Z ++ [100%Z].
Proof.
  apply (distributeVariantsEqually_many (values_of_variants 201)).
  vm_compute. lia.
Defined.

Lemma filter_indexed_beyond {A : Type} (index : Z) (k : nat) (l : list A) :
  (Z.of_nat (k + length l) ≤ index)%Z →
  filter_indexed (fun _ i => negb (Z.of_nat i =? index)%Z) k l = l.
Proof.
  revert k. induction l as [|x r IH]; intros k Hk; [reflexivity|].
  simpl in *. destruct (Z.eqb_spec (Z.of_nat k) index); [lia|].
  simpl. rewrite IH by lia. reflexivity.
Qed.

(** Filtering on [i !== index] keeps the list or deletes one element. *)
Lemma filter_indexed_cases {A : Type} (index : Z) (l : list A) :
  ((index < 0 ∨ Z.of_nat (length l) ≤ index)%Z ∧
   filter_indexed (fun _ i => negb (Z.of_nat i =? index)%Z) 0 l = l)
  ∨ ((0 ≤ index < Z.of_nat (length l))%Z ∧
     filter_indexed (fun _ i => negb (Z.of_nat i =? index)%Z) 0 l
     = delete (Z.to_nat index) l).
Proof.
  destruct (decide (0 ≤ index < Z.of_nat (length l))%Z) as [Hin|Hout].
  - right. split; [done|].
    rewrite <- (filter_indexed_delete (Z.to_nat index) 0 l).
    simpl. rewrite Z2Nat.id by lia. reflexivity.
  - left. split; [lia|].
    destruct (decide (index < 0)%Z).
    + apply filter_indexed_keeps. lia.
    + apply filter_indexed_beyond. simpl. lia.
Qed.

(** What [removeVariant] does on more than two variants. *)
Lemma removeVariant_run (v : Values) (index : Z) :
  2 < length (variants_or_empty v) →
  removeVariant index v
  = (tt, with_parameters v
           {| feature_flag_variants := Some
                (filter_indexed (fun _ i => negb (Z.of_nat i =? index)%Z) 0
                   (variants_or_empty v)) |}, []).
Proof.
  intros Hlen. unfold removeVariant, mbind, listener_bind, values.
  destruct (Nat.leb_spec (length (variants_or_empty v)) 2) as [H|_]; [lia|].
  reflexivity.
Qed.

Lemma removeVariant_rejected (v : Values) (index : Z) :
  length (variants_or_empty v) ≤ 2 →
  removeVariant index v = (tt, v, [ToastError "Experiments must have at least 2 variants"]).
Proof.
  intros Hlen. unfold removeVariant, mbind, listener_bind, values.
  destruct (Nat.leb_spec (length (variants_or_empty v)) 2) as [_|H]; [reflexivity | lia].
Qed.

(** X15: removeVariant with an index outside the list, on more than two
    variants, removes nothing, and raises no error. *)
Theorem removeVariant_out_of_range (v : Values) (index : Z) :
  2 < length (variants_or_empty v) →
  (index < 0 ∨ Z.of_nat (length (variants_or_empty v)) ≤ index)%Z →
  variants_or_empty (final_values (removeVariant index v)) = variants_or_empty v ∧
  effects (removeVariant index v) = [].
Proof.
  intros Hlen Hout. rewrite (removeVariant_run v index Hlen).
  split; [|reflexivity]. unfold final_values. simpl fst. simpl snd.
  rewrite variants_with_parameters.
  destruct (filter_indexed_cases index (variants_or_empty v)) as [[_ H] | [H _]];
    [exact H | lia].
Qed.

Lemma removeVariant_out_of_range_witness :
  variant_key <$>
    variants_or_empty
      (final_values (removeVariant 3 (final_values (addVariant initial_values))))
  = ["control"; "test"; "variant-3"].
Proof.
  destruct (removeVariant_out_of_range (final_values (addVariant initial_values)) 3)
    as [H _]; [vm_compute; lia | right; vm_compute; discriminate |].
  rewrite H. reflexivity.
Defined.

Lemma values_eta (v : Values) (vs : list MultivariateFlagVariant) :
  feature_flag_variants (parameters (experimentForm v)) = Some vs →
  with_parameters v {| feature_flag_variants := Some vs |} = v.
Proof.
  destruct v as [mode selected error [name descr key [variants]]].
  simpl. intros ->. reflexivity.
Qed.

(** X16: on a form with at least two variants, adding a variant and then
    removing the variant at the new last index gives back the values as they
    were. *)
Theorem addVariant_removeVariant (v : Values) :
  2 ≤ length (variants_or_empty v) →
  final_values
    (removeVariant (Z.of_nat (length (variants_or_empty v))) (final_values (addVariant v)))
  = v.
Proof.
  intros Hlen.
  set (variants := variants_or_empty v) in *.
  assert (Hsome : feature_flag_variants (parameters (experimentForm v)) = Some variants).
  { subst variants. unfold variants_or_empty in *.
    destruct (feature_flag_variants (parameters (experimentForm v))); [done|].
    simpl in Hlen. lia. }
  assert (Hadd : final_values (addVariant v)
                 = with_parameters v
                     {| feature_flag_variants := Some (variants ++ [newVariant variants]) |})
    by reflexivity.
  rewrite Hadd, removeVariant_run
    by (rewrite variants_with_parameters, length_app; simpl; lia).
  unfold final_values. simpl fst. simpl snd.
  rewrite variants_with_parameters, with_parameters_twice.
  rewrite <- (Nat.add_0_l (length variants)), filter_indexed_delete.
  assert (Hdel : delete (length variants) (variants ++ [newVariant variants]) = variants).
  { rewrite delete_take_drop, take_app_length, drop_ge
      by (rewrite length_app; simpl; lia).
    apply app_nil_r. }
  rewrite Hdel. by apply values_eta.
Qed.

Lemma addVariant_removeVariant_witness :
  final_values (removeVariant 2 (final_values (addVariant unbalanced_values)))
  = unbalanced_values.
Proof.
  apply (addVariant_removeVariant unbalanced_values). vm_compute. lia.
Defined.

Lemma sum_app (l1 l2 : list MultivariateFlagVariant) :
  variantPercentageSum (l1 ++ l2) = (variantPercentageSum l1 + variantPercentageSum l2)%Z.
Proof.
  rewrite !variantPercentageSum_shares, fmap_app.
  induction (rollout_percentage <$> l1) as [|x l IH]; simpl; [lia|]. rewrite IH. lia.
Qed.

Lemma sum_singleton (variant : MultivariateFlagVariant) :
  variantPercentageSum [variant] = rollout_percentage variant.
Proof. unfold variantPercentageSum. simpl. apply or_zero_id. Qed.

Lemma sum_within (bound : Z) (variants : list MultivariateFlagVariant) :
  shares_within bound variants →
  (- bound * Z.of_nat (length variants) ≤ variantPercentageSum variants
   ≤ bound * Z.of_nat (length variants))%Z.
Proof.
  rewrite variantPercentageSum_shares. unfold shares_within.
  induction 1 as [|variant variants Hvariant _ IH]; csimpl; lia.
Qed.

(** X17: on variants whose shares are whole numbers between -100 and 100,
    the range in which the sums of the selector are exact,
    variantPercentageSum lies between -100 N and 100 N for N variants;
    addVariant leaves it as it is, and removeVariant, when it removes the
    variant at a valid index of a list of more than two, lowers it by the
    share of that variant. *)
Theorem variantPercentageSum_add_remove (v : Values) (index : nat)
    (removedVariant : MultivariateFlagVariant) :
  let variants := variants_or_empty v in
  shares_within 100 variants →
  (- 100 * Z.of_nat (length variants) ≤ variantPercentageSum variants
   ≤ 100 * Z.of_nat (length variants))%Z ∧
  variantPercentageSum (variants_or_empty (final_values (addVariant v)))
  = variantPercentageSum variants ∧
  (2 < length variants → variants !! index = Some removedVariant →
     variantPercentageSum
       (variants_or_empty (final_values (removeVariant (Z.of_nat index) v)))
     = (variantPercentageSum variants - rollout_percentage removedVariant)%Z).
Proof.
  intros variants Hshares. split; [pose proof (sum_within 100 variants Hshares); lia|]. split.
  - change (variants_or_empty (final_values (addVariant v)))
      with (variants ++ [newVariant variants]).
    rewrite sum_app, sum_singleton. unfold newVariant. cbn [rollout_percentage]. lia.
  - intros Hlen Hidx. rewrite (removeVariant_run v _ Hlen).
    unfold final_values. simpl fst. simpl snd. rewrite variants_with_parameters.
    rewrite <- (Nat.add_0_l index), filter_indexed_delete. fold variants.
    rewrite delete_take_drop.
    rewrite <- (take_drop_middle variants index removedVariant Hidx) at 3.
    rewrite !sum_app. change (removedVariant :: drop (S index) variants)
      with ([removedVariant] ++ drop (S index) variants).
    rewrite sum_app, sum_singleton. lia.
Qed.

Lemma variantPercentageSum_add_remove_witness :
  shares_within 100 (variants_or_empty (final_values (addVariant unbalanced_values))) ∧
  variantPercentageSum
    (variants_or_empty
       (final_values (removeVariant 1 (final_values (addVariant unbalanced_values)))))
  = 50%Z.
Proof.
  assert (Hshares : shares_within 100
                      (variants_or_empty (final_values (addVariant unbalanced_values)))).
  { repeat constructor; simpl; lia. }
  split; [exact Hshares|].
  destruct (variantPercentageSum_add_remove (final_values (addVariant unbalanced_values)) 1
              {| variant_key := "test"; variant_name := None; rollout_percentage := 40 |}
              Hshares)
    as (_ & _ & H).
  exact (H ltac:(vm_compute; lia) eq_refl).
Defined.

Lemma same_but_parameters_refl (v : Values) : same_but_parameters v v.
Proof. by repeat split. Qed.

Lemma same_but_parameters_with (v : Values) (p : Parameters) :
  same_but_parameters v (with_parameters v p).
Proof. by repeat split. Qed.

Lemma same_but_parameters_trans (v1 v2 v3 : Values) :
  same_but_parameters v1 v2 → same_but_parameters v2 v3 → same_but_parameters v1 v3.
Proof.
  intros (?&?&?&?&?&?) (?&?&?&?&?&?). repeat split; congruence.
Qed.

Lemma allocate_keeps_two (a : AllocatorAction) (v : Values) :
  2 ≤ length (variants_or_empty v) →
  2 ≤ length (variants_or_empty (final_values (allocate a v))) ∧
  same_but_parameters v (final_values (allocate a v)).
Proof.
  intros Hlen. destruct a as [|index|]; simpl.
  - split; [|apply same_but_parameters_with].
    change (variants_or_empty (final_values (addVariant v)))
      with (variants_or_empty v ++ [newVariant (variants_or_empty v)]).
    rewrite length_app. lia.
  - destruct (decide (length (variants_or_empty v) ≤ 2)) as [Hle|Hgt].
    + rewrite (removeVariant_rejected v index Hle).
      split; [exact Hlen | apply same_but_parameters_refl].
    + rewrite (removeVariant_run v index) by lia.
      split; [|apply same_but_parameters_with].
      unfold final_values. simpl fst. simpl snd. rewrite variants_with_parameters.
      destruct (filter_indexed_cases index (variants_or_empty v)) as [[_ ->] | [Hin ->]];
        [lia|].
      rewrite length_delete by (apply lookup_lt_is_Some; lia). lia.
  - assert (Hne : variants_or_empty v ≠ [])
      by (intros H; rewrite H in Hlen; simpl in Hlen; lia).
    rewrite (distributeVariantsEqually_run v Hne).
    split; [|apply same_but_parameters_with].
    unfold final_values. simpl fst. simpl snd.
    by rewrite variants_with_parameters, length_distributed.
Qed.

(** X18: whatever sequence of addVariant, removeVariant (with any index) and
    distributeVariantsEqually runs on a form with at least two variants, the
    form has at least two variants afterwards, and mode, selected flag,
    validation error, name, description and key are as before. *)
Theorem allocate_all_keeps_two (actions : list AllocatorAction) (v : Values) :
  2 ≤ length (variants_or_empty v) →
  2 ≤ length (variants_or_empty (allocate_all actions v)) ∧
  same_but_parameters v (allocate_all actions v).
Proof.
  revert v. induction actions as [|a actions IH]; intros v Hlen.
  - split; [exact Hlen | apply same_but_parameters_refl].
  - destruct (allocate_keeps_two a v Hlen) as [Hlen' Hsame].
    destruct (IH _ Hlen') as [Hlen'' Hsame'].
    split; [exact Hlen''|]. by apply same_but_parameters_trans with (final_values (allocate a v)).
Qed.

Lemma allocate_all_keeps_two_witness :
  2 ≤ length (variants_or_empty
                (allocate_all [RemoveVariant 0; AddVariant; RemoveVariant 5; RemoveVariant 1;
                               RemoveVariant 0; DistributeVariantsEqually]
                   initial_values)).
Proof.
  destruct (allocate_all_keeps_two
              [RemoveVariant 0; AddVariant; RemoveVariant 5; RemoveVariant 1;
               RemoveVariant 0; DistributeVariantsEqually] initial_values) as [H _].
  - vm_compute. lia.
  - exact H.
Defined.

Lemma last_delete {A : Type} (l : list A) (i : nat) :
  i < length l - 1 → last (delete i l) = last l.
Proof.
  intros Hi. rewrite !last_lookup.
  rewrite length_delete by (apply lookup_lt_is_Some; lia).
  rewrite list_lookup_delete_ge by lia. f_equal. lia.
Qed.

(** X19: keys of variants do not stay unique: when the last of at least
    three variants has the key "variant-N" for the length N (as after
    addVariant), removing an earlier variant and adding one gives two variants
    with that key. *)
Theorem addVariant_duplicate_key (v : Values) (index : nat) :
  let variants := variants_or_empty v in
  3 ≤ length variants →
  index < length variants - 1 →
  variant_key <$> last variants
  = Some ("variant-" +:+ pretty (N.of_nat (length variants))) →
  ¬ NoDup (variant_key <$>
             variants_or_empty
               (final_values (addVariant (final_values (removeVariant (Z.of_nat index) v))))).
Proof.
  intros variants Hlen Hidx Hlast.
  rewrite (removeVariant_run v (Z.of_nat index)) by (fold variants; lia).
  unfold final_values at 2. simpl fst. simpl snd.
  rewrite <- (Nat.add_0_l index), filter_indexed_delete. fold variants.
  set (rest := delete index variants).
  change (variants_or_empty (final_values (addVariant
            (with_parameters v {| feature_flag_variants := Some rest |}))))
    with (rest ++ [newVariant rest]).
  assert (Hrest : length rest = length variants - 1).
  { subst rest. apply length_delete, lookup_lt_is_Some. lia. }
  rewrite fmap_app. intros Hdup. apply NoDup_app in Hdup as (_ & Hdisj & _).
  apply (Hdisj (variant_key (newVariant rest))); [|apply list_elem_of_singleton; reflexivity].
  assert (Hl : last rest = last variants) by (by apply last_delete).
  rewrite <- Hl in Hlast. destruct (last rest) as [x|] eqn:Hx; [|discriminate].
  simpl in Hlast. injection Hlast as Hkey.
  apply list_elem_of_fmap. exists x. split.
  - unfold newVariant. cbn [variant_key]. rewrite Hkey, Hrest. do 3 f_equal. lia.
  - apply last_Some in Hx as [l' ->]. apply elem_of_app. right. by left.
Qed.

Lemma addVariant_duplicate_key_witness :
  ¬ NoDup (variant_key <$>
             variants_or_empty
               (final_values
                  (addVariant
                     (final_values
                        (removeVariant 0 (final_values (addVariant initial_values))))))).
Proof.
  apply (addVariant_duplicate_key (final_values (addVariant initial_values)) 0).
  - vm_compute. lia.
  - vm_compute. lia.
  - reflexivity.
Defined.

(** X20: through handleRemoveVariant of the variants list, with a minimum
    of at least 2 as the experiment form sets it, removeVariant is never
    rejected: no error is raised, and at the minimum or below nothing
    changes.  With the component's default minimum of 1, removing from two
    variants does raise the error of removeVariant. *)
Theorem handleRemoveVariant_guard (minVariants : nat) (index : Z) (v : Values) :
  (2 ≤ minVariants →
     effects (handleRemoveVariant minVariants index v) = [] ∧
     (length (variants_or_empty v) ≤ minVariants →
        handleRemoveVariant minVariants index v = (tt, v, []))) ∧
  (minVariants < 2 → length (variants_or_empty v) = 2 →
     handleRemoveVariant minVariants index v
     = (tt, v, [ToastError "Experiments must have at least 2 variants"])).
Proof.
  unfold handleRemoveVariant, mbind, listener_bind, values. split.
  - intros Hmin.
    destruct (Nat.ltb_spec minVariants (length (variants_or_empty v))) as [Hlt|Hge].
    + rewrite (removeVariant_run v index) by lia. split; [reflexivity | lia].
    + split; [reflexivity | done].
  - intros Hmin Hlen.
    destruct (Nat.ltb_spec minVariants (length (variants_or_empty v))) as [Hlt|Hge]; [|lia].
    rewrite (removeVariant_rejected v index) by lia. reflexivity.
Qed.

Lemma handleRemoveVariant_guard_witness :
  handleRemoveVariant 2 0 initial_values = (tt, initial_values, []) ∧
  handleRemoveVariant 1 0 initial_values
  = (tt, initial_values, [ToastError "Experiments must have at least 2 variants"]).
Proof.
  destruct (handleRemoveVariant_guard 2 0 initial_values) as [H2 _].
  destruct (handleRemoveVariant_guard 1 0 initial_values) as [_ H1].
  split.
  - destruct H2 as [_ H2]; [lia|]. apply H2. vm_compute. lia.
  - apply H1; [lia | reflexivity].
Defined.

(** X21: the index that handleAddVariant hands on for focusing is the index
    of the variant that addVariant has just appended. *)
Theorem handleAddVariant_index (v : Values) :
  let r := handleAddVariant v in
  returned_by r = length (variants_or_empty v) ∧
  variants_or_empty (values_after r) !! returned_by r
  = Some (newVariant (variants_or_empty v)) ∧
  length (variants_or_empty (values_after r)) = S (returned_by r).
Proof.
  intros r.
  assert (Hrun : r = (length (variants_or_empty v),
                      with_parameters v
                        {| feature_flag_variants := Some
                             (variants_or_empty v ++ [newVariant (variants_or_empty v)]) |},
                      [])) by reflexivity.
  rewrite Hrun. unfold returned_by, values_after. simpl fst. simpl snd.
  rewrite variants_with_parameters.
  split; [reflexivity|]. split.
  - rewrite lookup_app_r by lia. by rewrite Nat.sub_diag.
  - rewrite length_app. simpl. lia.
Qed.

(** ** Trimming *)

Lemma trimStart_idempotent (s : string) : JS.trimStart (JS.trimStart s) = JS.trimStart s.
Proof.
  induction s as [|c r IH]; [done|].
  simpl. destruct (JS.is_white_space c) eqn:Hc; [exact IH|].
  simpl. by rewrite Hc.
Qed.

Lemma trimEnd_cons (c : ascii) (r : string) :
  JS.trimEnd (String c r) =
  match JS.trimEnd r with
  | EmptyString => if JS.is_white_space c then EmptyString else String c EmptyString
  | String c' r' => String c (String c' r')
  end.
Proof. reflexivity. Qed.

Lemma trimEnd_idempotent (s : string) : JS.trimEnd (JS.trimEnd s) = JS.trimEnd s.
Proof.
  induction s as [|c r IH]; [done|].
  rewrite trimEnd_cons. destruct (JS.trimEnd r) as [|c' r'] eqn:Hr.
  - destruct (JS.is_white_space c) eqn:Hc; [done|]. simpl. by rewrite Hc.
  - rewrite trimEnd_cons, IH. reflexivity.
Qed.

Lemma trimStart_trimEnd (s : string) :
  JS.trimStart s = s → JS.trimStart (JS.trimEnd s) = JS.trimEnd s.
Proof.
  destruct s as [|c r]; [done|].
  simpl. destruct (JS.is_white_space c) eqn:Hc.
  - intros H. apply (f_equal String.length) in H.
    assert (Hlen : ∀ t, String.length (JS.trimStart t) ≤ String.length t).
    { intros t. induction t as [|x t IH]; simpl; [lia|].
      destruct (JS.is_white_space x); simpl; lia. }
    pose proof (Hlen r). simpl in H. lia.
  - intros _. destruct (JS.trimEnd r); simpl; by rewrite Hc.
Qed.

Lemma trim_idempotent (s : string) : JS.trim (JS.trim s) = JS.trim s.
Proof.
  unfold JS.trim.
  rewrite (trimStart_trimEnd (JS.trimStart s)) by apply trimStart_idempotent.
  apply trimEnd_idempotent.
Qed.

(** ** Requests in flight, in general *)

Lemma advance_validate (key : string) (s : Session) :
  (JS.trim key = "" ∧
   advance key (validateFeatureFlagKey key) s
   = {| validationError := None;
        featureFlagValidation := None;
        in_flight := in_flight s;
        debounce_timer := debounce_timer s |})
  ∨ (JS.trim key ≠ "" ∧
     ∃ k, validateFeatureFlagKey key = Await key k ∧
          in_flight (advance key (validateFeatureFlagKey key) s) = in_flight s ++ [(key, k)] ∧
          validationError (advance key (validateFeatureFlagKey key) s) = validationError s ∧
          debounce_timer (advance key (validateFeatureFlagKey key) s) = debounce_timer s).
Proof.
  destruct (JS.truthy (JS.trim key)) eqn:Hkey.
  - right. split; [by apply truthy_true|].
    unfold validateFeatureFlagKey. rewrite Hkey. simpl. eexists. by repeat split.
  - left. unfold validateFeatureFlagKey. rewrite Hkey. simpl.
    split; [|done]. destruct (JS.trim key); [done | discriminate].
Qed.

Lemma step_issued (s : Session) (e : Event) :
  issued_by_validator s → issued_by_validator (step s e).
Proof.
  unfold issued_by_validator. intros Hs.
  assert (Hvalidate : ∀ key s0, in_flight s0 = in_flight s →
            Forall (fun request =>
                      JS.trim (fst request) ≠ "" ∧
                      validateFeatureFlagKey (fst request)
                      = Await (fst request) (snd request))
                   (in_flight (advance key (validateFeatureFlagKey key) s0))).
  { intros key s0 Hs0.
    destruct (advance_validate key s0) as [(_ & ->) | (Hkey & k & Hk & -> & _)];
      simpl; rewrite Hs0; [done|].
    apply Forall_app. split; [done|]. by apply Forall_singleton. }
  destruct e as [key | key | | n response].
  - by apply Hvalidate.
  - done.
  - simpl. destruct (debounce_timer s ≫= updateFeatureFlagKey) as [key|]; [|done].
    by apply Hvalidate.
  - destruct (in_flight s !! n) as [[key k]|] eqn:Hn; [|by (simpl; rewrite Hn)].
    pose proof (Forall_lookup_1 _ _ _ _ Hs Hn) as [Hkey Hk]. simpl in Hkey, Hk.
    rewrite (response_settles s n key k response Hkey Hn Hk).
    simpl. apply (Forall_delete _ _ _ Hs).
Qed.

Lemma run_events_issued (events : list Event) (s : Session) :
  issued_by_validator s → issued_by_validator (run_events s events).
Proof.
  revert s. induction events as [|e events IH]; intros s Hs; [done|].
  apply IH. by apply step_issued.
Qed.

(** X22: whatever events came before, the arrival of the response to a
    request in flight, be its key still the current one or not, takes that
    one request out of flight, stores the value returned for its key (not
    available when the response holds the key, available when it holds none,
    null when the lookup failed) as the loader's value, and leaves null as
    the error. *)
Theorem any_response_decides (events : list Event) (n : nat) (key : string)
    (k : ApiResponse → Async (option Validation)) (response : ApiResponse) :
  let s := run_events initial_session events in
  in_flight s !! n = Some (key, k) →
  step s (ResponseArrives n response)
  = {| validationError := None;
       featureFlagValidation := validation_of key response;
       in_flight := delete n (in_flight s);
       debounce_timer := debounce_timer s |}.
Proof.
  intros s Hn.
  assert (Hs : issued_by_validator s) by (apply run_events_issued; constructor).
  pose proof (Forall_lookup_1 _ _ _ _ Hs Hn) as [Hkey Hk]. simpl in Hkey, Hk.
  by apply (response_settles s n key k).
Qed.

Lemma any_response_decides_witness :
  featureFlagValidation
    (step (run_events initial_session
             [ ValidateFeatureFlagKey "a"; ValidateFeatureFlagKey "";
               ValidateFeatureFlagKey "ab"; ValidateFeatureFlagKey "abc";
               ResponseArrives 2 free_response ])
          (ResponseArrives 0 (taken_response "a")))
  = Some {| available := false |}.
Proof.
  destruct (advance_validate "a" initial_session) as [[H _] | (_ & k & Hk & _)];
    [discriminate H|].
  rewrite (any_response_decides
             [ ValidateFeatureFlagKey "a"; ValidateFeatureFlagKey "";
               ValidateFeatureFlagKey "ab"; ValidateFeatureFlagKey "abc";
               ResponseArrives 2 free_response ]
             0 "a" k (taken_response "a")).
  - reflexivity.
  - injection Hk as <-. reflexivity.
Defined.

Lemma run_updates (keys : list string) (key : string) (s : Session) :
  run_events s ((UpdateFeatureFlagKey <$> keys) ++ [UpdateFeatureFlagKey key])
  = {| validationError := validationError s;
       featureFlagValidation := featureFlagValidation s;
       in_flight := in_flight s;
       debounce_timer := Some key |}.
Proof.
  revert s. induction keys as [|x keys IH]; intros s; [reflexivity|].
  unfold run_events in *. simpl. rewrite IH. reflexivity.
Qed.

(** X23: a burst of updateFeatureFlagKey calls followed by the debounce
    interval leads to at most one validation, that of the trimmed last key:
    one request in flight for it when it is not blank, none when it is
    blank; the error shown is not touched. *)
Theorem debounce_burst (s : Session) (keys : list string) (key : string) :
  let s' := run_events s ((UpdateFeatureFlagKey <$> keys)
                          ++ [UpdateFeatureFlagKey key; DebounceElapsed]) in
  debounce_timer s' = None ∧
  validationError s' = validationError s ∧
  (JS.trim key = "" → in_flight s' = in_flight s) ∧
  (JS.trim key ≠ "" →
     ∃ k, validateFeatureFlagKey (JS.trim key) = Await (JS.trim key) k ∧
          in_flight s' = in_flight s ++ [(JS.trim key, k)]).
Proof.
  intros s'. subst s'.
  replace ((UpdateFeatureFlagKey <$> keys) ++ [UpdateFeatureFlagKey key; DebounceElapsed])
    with (((UpdateFeatureFlagKey <$> keys) ++ [UpdateFeatureFlagKey key]) ++ [DebounceElapsed])
    by (by rewrite <- app_assoc).
  unfold run_events. rewrite fold_left_app. fold (run_events s
    ((UpdateFeatureFlagKey <$> keys) ++ [UpdateFeatureFlagKey key])).
  rewrite run_updates. simpl. unfold updateFeatureFlagKey.
  destruct (JS.truthy (JS.trim key)) eqn:Hkey.
  - apply truthy_true in Hkey as Hne.
    destruct (advance_validate (JS.trim key)
                {| validationError := validationError s;
                   featureFlagValidation := featureFlagValidation s;
                   in_flight := in_flight s;
                   debounce_timer := None |})
      as [(Hblank & _) | (_ & k & Hk & Hflight & Herror & Htimer)].
    + rewrite trim_idempotent in Hblank. by destruct Hne.
    + split; [exact Htimer|]. split; [exact Herror|]. split; [done|].
      intros _. by exists k.
  - simpl. split; [done|]. split; [done|]. split; [done|].
    intros Hne%truthy_true. congruence.
Qed.

Lemma debounce_burst_witness :
  length (in_flight
            (run_events initial_session
               [ UpdateFeatureFlagKey "p"; UpdateFeatureFlagKey "pr";
                 UpdateFeatureFlagKey " pri "; DebounceElapsed ])) = 1 ∧
  in_flight
    (run_events initial_session
       [ UpdateFeatureFlagKey "p"; UpdateFeatureFlagKey "  "; DebounceElapsed ]) = [].
Proof.
  split.
  - destruct (debounce_burst initial_session ["p"; "pr"] " pri ") as (_ & _ & _ & H).
    destruct H as (k & _ & H); [discriminate|].
    exact (f_equal length H).
  - destruct (debounce_burst initial_session ["p"] "  ") as (_ & _ & H & _).
    apply H. reflexivity.
Defined.

(** ** Submission *)


